(** * A write-ahead-logged key-value store: the WAL record codec, the replayer
      and the store facade of [sd-keyvalue-store], embedded in Rocq.

    The Go program keeps a [map[string][]byte] in memory and an append-only
    log file of checksummed records.  The embedding follows the program:

    - bytes are [Init.Byte.byte]; Go's [uint32] is a [Z] reduced modulo
      [2^32]; slices and strings are [list byte];
    - the packages the program imports ([encoding/binary], [hash/crc32],
      [io], [bufio], [os]) are modelled by small modules of the same names;
    - the log file is a list of bytes together with a schedule of injected
      write and fsync outcomes, so that failing appends and failing syncs
      are ordinary inputs;
    - the in-memory table is a [gmap] from keys to values.

    Locks are not modelled: every operation runs alone.  [os.OpenFile] and
    [os.Open] are taken to succeed (their error branches return before any
    state is touched). *)

From Stdlib Require Import ZArith List Lia Bool.
From coqutil Require Import Byte.
From coqutil Require Import Word.LittleEndianList.
From stdpp Require Import gmap.
Import ListNotations.
Local Open Scope Z_scope.

(** ** Bytes *)

#[global] Instance byte_eq_dec : EqDecision byte.
Proof.
  intros a b. destruct (N.eq_dec (Byte.to_N a) (Byte.to_N b)) as [E|E].
  - left. apply byte.unsigned_inj. unfold byte.unsigned. now rewrite E.
  - right. intros ->. now apply E.
Defined.

#[global] Program Instance byte_countable : Countable byte :=
  inj_countable Byte.to_N Byte.of_N _.
Next Obligation. intros b. apply Byte.of_to_N. Qed.

(** Go's [len(s)], as an integer. *)
Definition len {A} (s : list A) : Z := Z.of_nat (length s).

(** Go's conversion [uint32(n)]. *)
Definition uint32 (n : Z) : Z := n mod 2 ^ 32.

(** Go's slice expression [s[i:j]]. *)
Definition slice {A} (s : list A) (i j : nat) : list A :=
  firstn (j - i) (skipn i s).

(** ** encoding/binary: the little-endian byte order *)
Module binary.

(** [binary.LittleEndian.PutUint32(b, v)]: the four bytes stored in [b]. *)
Definition PutUint32 (v : Z) : list byte :=
  [ byte.of_Z v; byte.of_Z (Z.shiftr v 8);
    byte.of_Z (Z.shiftr v 16); byte.of_Z (Z.shiftr v 24) ].

(** [binary.LittleEndian.Uint32(b)]; Go panics on a slice shorter than
    four bytes, which no caller here passes. *)
Definition Uint32 (b : list byte) : Z :=
  match b with
  | b0 :: b1 :: b2 :: b3 :: _ =>
      Z.lor (Z.lor (Z.lor (byte.unsigned b0)
                          (Z.shiftl (byte.unsigned b1) 8))
                   (Z.shiftl (byte.unsigned b2) 16))
            (Z.shiftl (byte.unsigned b3) 24)
  | _ => 0
  end.

End binary.

(** ** hash/crc32: the IEEE checksum, table driven as in Go's generic code *)
Module crc32.

(** [crc32.IEEE], the reversed polynomial. *)
Definition IEEE : Z := 0xedb88320.

(** One turn of the inner loop of [simpleMakeTable]. *)
Definition shift1 (poly crc : Z) : Z :=
  if Z.land crc 1 =? 1 then Z.lxor (Z.shiftr crc 1) poly
  else Z.shiftr crc 1.

(** Entry [i] of the table [simpleMakeTable(poly)] fills in. *)
Definition entry (poly i : Z) : Z := Nat.iter 8 (shift1 poly) i.

(** The 256-entry table of the IEEE polynomial. *)
Definition IEEETable : list Z :=
  Eval vm_compute in map (fun i => entry IEEE (Z.of_nat i)) (seq 0 256).

(** [tab[i]]. *)
Definition tab (i : Z) : Z := nth (Z.to_nat i) IEEETable 0.

(** [^crc] on a [uint32]. *)
Definition not32 (crc : Z) : Z := Z.lxor crc 0xffffffff.

(** The body of the loop of [simpleUpdate]:
    [crc = tab[byte(crc)^v] ^ (crc >> 8)]. *)
Definition update1 (crc : Z) (v : byte) : Z :=
  Z.lxor (tab (Z.lxor (Z.land crc 255) (byte.unsigned v))) (Z.shiftr crc 8).

(** [simpleUpdate(crc, tab, p)]. *)
Definition update (crc : Z) (p : list byte) : Z :=
  not32 (fold_left update1 p (not32 crc)).

(** The [digest] behind [crc32.NewIEEE()]: its running [crc]. *)
Definition NewIEEE : Z := 0.
Definition Write (d : Z) (p : list byte) : Z := update d p.
Definition Sum32 (d : Z) : Z := d.

(** [crc32.ChecksumIEEE(data)]. *)
Definition ChecksumIEEE (data : list byte) : Z := update 0 data.

(** The bit-serial definition of CRC-32: the register starts at all ones,
    each byte is folded into the low end and the register is shifted
    eight times, and the result is complemented. *)
Definition bitwise1 (crc : Z) (v : byte) : Z :=
  Nat.iter 8 (shift1 IEEE) (Z.lxor crc (byte.unsigned v)).

Definition bitwise (data : list byte) : Z :=
  not32 (fold_left bitwise1 data 0xffffffff).

End crc32.

(** ** Go's [error] values that occur in the program *)
Inductive error : Set :=
| EOF                (* io.EOF *)
| ErrUnexpectedEOF   (* io.ErrUnexpectedEOF *)
| ErrShortWrite      (* io.ErrShortWrite *)
| EIO.               (* any failure reported by the operating system *)

#[global] Instance error_eq_dec : EqDecision error.
Proof. solve_decision. Defined.

(** ** os: the log file and its append handle *)
Module os.

(** The log file: its bytes, and the outcome of each coming [write] or
    [fsync] on the append handle.  [None] (or an exhausted schedule) lets
    the call succeed; [Some n] makes it fail, a write after at most [n]
    bytes and always before its last byte. *)
Record File : Type := { content : list byte; faults : list (option nat) }.

(** [f.Write(p)] on a handle opened with [O_APPEND]. *)
Definition Write (f : File) (p : list byte) : (nat * option error) * File :=
  match faults f with
  | Some k :: fs =>
      let n := Nat.min k (length p - 1) in
      ((n, Some EIO), {| content := content f ++ firstn n p; faults := fs |})
  | _ =>
      ((length p, None),
       {| content := content f ++ p; faults := tl (faults f) |})
  end.

(** [f.Sync()]. *)
Definition Sync (f : File) : option error * File :=
  match faults f with
  | Some _ :: fs => (Some EIO, {| content := content f; faults := fs |})
  | _ => (None, {| content := content f; faults := tl (faults f) |})
  end.

End os.

(** ** bufio: the buffered writer and the buffered reader *)
Module bufio.

(** The size given to [bufio.NewWriterSize] and [bufio.NewReaderSize]. *)
Definition size : Z := 2 ^ 20.

(** [bufio.Writer]: the file written to, the bytes buffered ([b.n] is
    their number) and the sticky error. *)
Record Writer : Type :=
  { wr : os.File; buf : list byte; err : option error }.

Definition NewWriterSize (f : os.File) : Writer :=
  {| wr := f; buf := []; err := None |}.

Definition Available (b : Writer) : Z := size - len (buf b).
Definition Buffered (b : Writer) : Z := len (buf b).

(** [b.Flush()]. *)
Definition Flush (b : Writer) : option error * Writer :=
  match err b with
  | Some e => (Some e, b)
  | None =>
      if Buffered b =? 0 then (None, b)
      else
        let '((n, e), f) := os.Write (wr b) (buf b) in
        let e := match e with
                 | None => if (n <? length (buf b))%nat
                           then Some ErrShortWrite else None
                 | Some e => Some e
                 end in
        match e with
        | Some e =>
            (Some e, {| wr := f; buf := skipn n (buf b); err := Some e |})
        | None => (None, {| wr := f; buf := []; err := None |})
        end
  end.

(** [b.Write(p)] runs
    [for len(p) > b.Available() && b.err == nil { ... }]; [guard] is the
    loop condition and [body] one turn of it, on the writer and the part
    of [p] still to be written. *)
Definition guard (s : Writer * list byte) : bool :=
  (Available (fst s) <? len (snd s)) && bool_decide (err (fst s) = None).

Definition body (s : Writer * list byte) : Writer * list byte :=
  let '(b, p) := s in
  if Buffered b =? 0 then
    (* large write, empty buffer: write directly from p *)
    let '((n, e), f) := os.Write (wr b) p in
    ({| wr := f; buf := buf b; err := e |}, skipn n p)
  else
    let n := Z.to_nat (Z.min (Available b) (len p)) in
    let b' := {| wr := wr b; buf := buf b ++ firstn n p; err := err b |} in
    (snd (Flush b'), skipn n p).

Definition turn (s : Writer * list byte) : Writer * list byte :=
  if guard s then body s else s.

(** [b.Write(p)].  The loop is run for two turns, after which its
    condition is false ([Write_loop_exits] below); the byte count Go
    returns beside the error is dropped, as every caller drops it. *)
Definition Write (b : Writer) (p : list byte) : option error * Writer :=
  let '(b, p) := turn (turn (b, p)) in
  match err b with
  | Some e => (Some e, b)
  | None => (None, {| wr := wr b; buf := buf b ++ p; err := None |})
  end.

(** [bufio.Reader] over a read handle: the bytes not yet consumed, and
    after how many more bytes the device fails ([None]: never). *)
Record Reader : Type := { rest : list byte; fault : option nat }.

Definition NewReaderSize (data : list byte) (fault : option nat) : Reader :=
  {| rest := data; fault := fault |}.

End bufio.

(** ** io *)
Module io.
Import bufio.

(** The number of bytes the reader can still deliver. *)
Definition avail (br : Reader) : nat :=
  match fault br with
  | Some k => Nat.min k (length (rest br))
  | None => length (rest br)
  end.

Definition advance (br : Reader) (n : nat) : Reader :=
  {| rest := skipn n (rest br);
     fault := match fault br with
              | Some k => Some (k - n)%nat
              | None => None
              end |}.

(** [io.ReadFull(br, buf)] with [len(buf) = n]: the bytes read and the
    error.  A short read is [io.EOF] when nothing was read,
    [io.ErrUnexpectedEOF] when the file ended inside the buffer, and the
    device's own error when that came first. *)
Definition ReadFull (br : Reader) (n : nat)
  : (list byte * option error) * Reader :=
  if (n <=? avail br)%nat then
    ((firstn n (rest br), None), advance br n)
  else
    let got := avail br in
    let e := match fault br with
             | Some k =>
                 if (k <=? length (rest br))%nat then EIO
                 else if (got =? 0)%nat then EOF else ErrUnexpectedEOF
             | None => if (got =? 0)%nat then EOF else ErrUnexpectedEOF
             end in
    ((firstn got (rest br), Some e), advance br got).

End io.

(** ** The program: the write-ahead log *)

(** Op codes. *)
Definition opSet : byte := Byte.x01.
Definition opDel : byte := Byte.x02.

(** [type WAL struct]: [bufw] buffers the writes to the append handle [f];
    the handle is the one held by the writer. *)
Record WAL : Type := { bufw : bufio.Writer }.

Definition f (w : WAL) : os.File := bufio.wr (bufw w).

Definition OpenWAL (file : os.File) : WAL :=
  {| bufw := bufio.NewWriterSize file |}.

(** [if err := c; err != nil { return err }] on the buffered writer. *)
Notation "'try' b ← c 'in' k" :=
  (match c with
   | (Some e, b) => (Some e, {| bufw := b |})
   | (None, b) => k
   end)
  (at level 10, b name, c at level 100, k at level 200,
   format "'[v' 'try'  b  ←  c  'in' '/' k ']'").

(** The nine header bytes [appendRecord] builds. *)
Definition mkHeader (op : byte) (key val : list byte) : list byte :=
  op :: binary.PutUint32 (uint32 (len key))
     ++ binary.PutUint32 (uint32 (len val)).

(** The checksum [appendRecord] computes: the digest is fed the header,
    the key and, when it is not empty, the value. *)
Definition checksum (header key val : list byte) : Z :=
  let h := crc32.NewIEEE in
  let h := crc32.Write h header in
  let h := crc32.Write h key in
  let h := if 0 <? len val then crc32.Write h val else h in
  crc32.Sum32 h.

Definition WAL_appendRecord (w : WAL) (op : byte) (key val : list byte)
  : option error * WAL :=
  let header := mkHeader op key val in
  let sum := checksum header key val in
  try b ← bufio.Write (bufw w) header in
  try b ← bufio.Write b key in
  try b ← (if 0 <? len val then bufio.Write b val else (None, b)) in
  let crcBuf := binary.PutUint32 sum in
  try b ← bufio.Write b crcBuf in
  try b ← bufio.Flush b in
  (None, {| bufw := b |}).

Definition WAL_AppendSET (w : WAL) (key val : list byte)
  : option error * WAL :=
  WAL_appendRecord w opSet key val.

(** The value passed is [nil]. *)
Definition WAL_AppendDEL (w : WAL) (key : list byte) : option error * WAL :=
  WAL_appendRecord w opDel key [].

(** [w.Sync()]: flush, then fsync. *)
Definition WAL_Sync (w : WAL) : option error * WAL :=
  try b ← bufio.Flush (bufw w) in
  let '(e, file) := os.Sync (bufio.wr b) in
  (e, {| bufw := {| bufio.wr := file; bufio.buf := bufio.buf b;
                    bufio.err := bufio.err b |} |}).

(** [w.Close()]: flush, then close the handle (which keeps the bytes). *)
Definition WAL_Close (w : WAL) : option error * WAL :=
  try b ← bufio.Flush (bufw w) in
  (None, {| bufw := b |}).

(** *** Replay *)

Definition maxKey : Z := 2 ^ 20.        (* 1 << 20 *)
Definition maxVal : Z := 64 * 2 ^ 20.   (* 64 << 20 *)

(** What one turn of the loop of [Replay] comes to: a record to apply, or
    one of the returns, named after the comments beside them. *)
Inductive outcome : Type :=
| Decoded (op : byte) (key val : list byte)
| EndOfStream           (* clean end or partial header: return nil *)
| Corrupt               (* bad length, partial body, bad crc: return nil *)
| Failed (e : error).   (* return err *)

(** The body of the loop of [Replay], up to the call of [apply]. *)
Definition readRecord (br : bufio.Reader) : outcome * bufio.Reader :=
  let '((header, e), br) := io.ReadFull br 9 in
  match e with
  | Some e =>
      if bool_decide (e = EOF) || bool_decide (e = ErrUnexpectedEOF)
      then (EndOfStream, br) else (Failed e, br)
  | None =>
      let op := nth 0 header Byte.x00 in
      let keyLen := binary.Uint32 (slice header 1 5) in
      let valLen := binary.Uint32 (slice header 5 9) in
      if (keyLen =? 0) || (maxKey <? keyLen) || (maxVal <? valLen)
      then (Corrupt, br)
      else
        let '((key, e), br) := io.ReadFull br (Z.to_nat keyLen) in
        match e with
        | Some _ => (Corrupt, br)
        | None =>
            let '((val, e), br) :=
              if 0 <? valLen then io.ReadFull br (Z.to_nat valLen)
              else (([], None), br) in
            match e with
            | Some _ => (Corrupt, br)
            | None =>
                let '((crcBuf, e), br) := io.ReadFull br 4 in
                match e with
                | Some _ => (Corrupt, br)
                | None =>
                    let wantCRC := binary.Uint32 crcBuf in
                    let gotCRC :=
                      let h := crc32.NewIEEE in
                      let h := crc32.Write h header in
                      let h := crc32.Write h key in
                      let h := if 0 <? valLen then crc32.Write h val else h in
                      crc32.Sum32 h in
                    if gotCRC =? wantCRC then (Decoded op key val, br)
                    else (Corrupt, br)
                end
            end
        end
  end.

(** The loop of [Replay] over the reader [br], threading the state the
    callback [apply] updates.  [None] only when [fuel] turns were not
    enough. *)
Fixpoint replayLoop {S : Type} (fuel : nat) (br : bufio.Reader)
    (apply : byte -> list byte -> list byte -> S -> S) (st : S)
  : option (option error * S * bufio.Reader) :=
  match fuel with
  | O => None
  | Datatypes.S fuel =>
      match readRecord br with
      | (Decoded op key val, br) =>
          replayLoop fuel br apply (apply op key val st)
      | (EndOfStream, br) => Some (None, st, br)
      | (Corrupt, br) => Some (None, st, br)
      | (Failed e, br) => Some (Some e, st, br)
      end
  end.

(** [w.Replay(apply)]: a fresh read handle on the file of [w], read from
    the start; [rfault] is the device fault of that handle.  One turn more
    than the file has bytes is always enough ([Replay_returns]). *)
Definition WAL_Replay {S : Type} (w : WAL) (rfault : option nat)
    (apply : byte -> list byte -> list byte -> S -> S) (st : S)
  : option (option error * S * bufio.Reader) :=
  let br := bufio.NewReaderSize (os.content (f w)) rfault in
  replayLoop (Datatypes.S (length (os.content (f w)))) br apply st.

(** ** The program: the key-value store *)

Record KV : Type :=
  { mem : gmap (list byte) (list byte);
    wal : WAL;
    fsyncEvery : Z }.

(** The callback [OpenKV] gives to [Replay]. *)
Definition applyRecord (op : byte) (key val : list byte)
    (m : gmap (list byte) (list byte)) : gmap (list byte) (list byte) :=
  if bool_decide (op = opSet) then <[key := val]> m
  else if bool_decide (op = opDel) then delete key m
  else m.

(** [OpenKV(path, fsyncEvery)] on the file at [path]: the store, or the
    error of the replay. *)
Definition OpenKV (file : os.File) (rfault : option nat) (fsyncEvery : Z)
  : option (error + KV) :=
  let wal := OpenWAL file in
  match WAL_Replay wal rfault applyRecord ∅ with
  | None => None
  | Some (Some e, _, _) => Some (inl e)
  | Some (None, m, _) =>
      Some (inr {| mem := m; wal := wal; fsyncEvery := fsyncEvery |})
  end.

Definition with_wal (kv : KV) (w : WAL) : KV :=
  {| mem := mem kv; wal := w; fsyncEvery := fsyncEvery kv |}.

Definition KV_Close (kv : KV) : option error * KV :=
  let '(e, w) := WAL_Close (wal kv) in (e, with_wal kv w).

(** [kv.Get(key)]: a copy of the value, or not found. *)
Definition KV_Get (kv : KV) (key : list byte) : option (list byte) :=
  mem kv !! key.

Definition KV_Set (kv : KV) (key val : list byte) : option error * KV :=
  (* 1) WAL append first (write-ahead) *)
  match WAL_AppendSET (wal kv) key val with
  | (Some e, w) => (Some e, with_wal kv w)
  | (None, w) =>
      match (if fsyncEvery kv =? 1 then WAL_Sync w else (None, w)) with
      | (Some e, w) => (Some e, with_wal kv w)
      | (None, w) =>
          (* 2) apply to mem *)
          (None, {| mem := <[key := val]> (mem kv); wal := w;
                    fsyncEvery := fsyncEvery kv |})
      end
  end.

Definition KV_Del (kv : KV) (key : list byte) : option error * KV :=
  match WAL_AppendDEL (wal kv) key with
  | (Some e, w) => (Some e, with_wal kv w)
  | (None, w) =>
      match (if fsyncEvery kv =? 1 then WAL_Sync w else (None, w)) with
      | (Some e, w) => (Some e, with_wal kv w)
      | (None, w) =>
          (None, {| mem := delete key (mem kv); wal := w;
                    fsyncEvery := fsyncEvery kv |})
      end
  end.

(** Text as bytes. *)
Definition bytes (s : list Z) : list byte := map byte.of_Z s.

(** Scenario: Set a=1, Set b=22, Del a, close, reopen. *)
Definition scenario1 : option (option (list byte) * option (list byte)) :=
  match OpenKV {| os.content := []; os.faults := [] |} None 0 with
  | Some (inr kv) =>
      let kv := snd (KV_Set kv (bytes [97]) (bytes [49])) in
      let kv := snd (KV_Set kv (bytes [98]) (bytes [50; 50])) in
      let kv := snd (KV_Del kv (bytes [97])) in
      let kv := snd (KV_Close kv) in
      match OpenKV (f (wal kv)) None 0 with
      | Some (inr kv') => Some (KV_Get kv' (bytes [97]), KV_Get kv' (bytes [98]))
      | _ => None
      end
  | _ => None
  end.
(** The values of a [uint32]. *)
Definition word32 (x : Z) : Prop := 0 <= x < 2 ^ 32.

#[global] Instance word32_dec x : Decision (word32 x).
Proof. unfold word32. apply _. Defined.


(** ** Records and logs, as the properties speak of them *)

(** The bytes [appendRecord] hands to the buffered writer, in order. *)
Definition encode (op : byte) (key val : list byte) : list byte :=
  let header := mkHeader op key val in
  header ++ key ++ val ++ binary.PutUint32 (checksum header key val).

(** One logged mutation. *)
Record record : Type := Rec { r_op : byte; r_key : list byte; r_val : list byte }.

Definition encodeRec (r : record) : list byte :=
  encode (r_op r) (r_key r) (r_val r).

(** The size bounds [Replay] insists on. *)
Definition inBounds (key val : list byte) : Prop :=
  1 <= len key <= maxKey /\ len val <= maxVal.

Definition validRec (r : record) : Prop := inBounds (r_key r) (r_val r).

(** A log made of complete records. *)
Definition encodeLog (rs : list record) : list byte :=
  flat_map encodeRec rs.

(** The table after the records [rs], applied in order to [m]. *)
Definition applyAll (rs : list record) (m : gmap (list byte) (list byte))
  : gmap (list byte) (list byte) :=
  fold_left (fun m r => applyRecord (r_op r) (r_key r) (r_val r) m) rs m.

(** A read handle without device faults. *)
Definition reader (data : list byte) : bufio.Reader :=
  bufio.NewReaderSize data None.

(** The loop of [Replay] on the bytes [data], with the turns [Replay]
    allows for them. *)
Definition replay {S : Type} (data : list byte)
    (apply : byte -> list byte -> list byte -> S -> S) (st : S)
  : option (option error * S * bufio.Reader) :=
  replayLoop (Datatypes.S (length data)) (reader data) apply st.



(** The table [OpenKV] rebuilds from a file read without device faults. *)
Definition recovered (data : list byte)
  : option (option error * gmap (list byte) (list byte)) :=
  match replay data applyRecord ∅ with
  | Some (e, m, _) => Some (e, m)
  | None => None
  end.

(** ** The buffered writer, as the properties speak of it *)

(** The writer holds no error and nothing buffered. *)
Definition clean (w : WAL) : Prop :=
  bufio.err (bufw w) = None /\ bufio.buf (bufw w) = [].

(** No write or fsync is scheduled to fail. *)
Definition noFaults (file : os.File) : Prop := os.faults file = [].

(** Since the file held [c0] the writer [b] has been handed the bytes [s]
    and holds no error: a part of [s] reached the file, the rest waits in
    the buffer. *)
Definition Good (c0 s : list byte) (b : bufio.Writer) : Prop :=
  bufio.err b = None /\
  exists w, os.content (bufio.wr b) = c0 ++ w /\ w ++ bufio.buf b = s.

(** Since the file held [c0] the writer [b] has been handed the bytes [s]
    and holds an error: only a proper prefix of [s] reached the file. *)
Definition Bad (c0 s : list byte) (b : bufio.Writer) : Prop :=
  bufio.err b <> None /\
  exists w t, os.content (bufio.wr b) = c0 ++ w /\ w ++ t = s /\ t <> [].

(** ** Calls on the store, as the properties speak of them *)

Inductive call : Type :=
| CallSet (key val : list byte)
| CallDel (key : list byte).

Definition doCall (kv : KV) (c : call) : option error * KV :=
  match c with
  | CallSet key val => KV_Set kv key val
  | CallDel key => KV_Del kv key
  end.

(** The store after the calls [cs], when every one of them returned nil. *)
Fixpoint runCalls (kv : KV) (cs : list call) : option KV :=
  match cs with
  | [] => Some kv
  | c :: cs =>
      match doCall kv c with
      | (None, kv') => runCalls kv' cs
      | (Some _, _) => None
      end
  end.

(** The operation of a call on a plain map. *)
Definition applyCall (m : gmap (list byte) (list byte)) (c : call)
  : gmap (list byte) (list byte) :=
  match c with
  | CallSet key val => <[key := val]> m
  | CallDel key => delete key m
  end.

Definition applyCalls (cs : list call) : gmap (list byte) (list byte) :=
  fold_left applyCall cs ∅.

(** The record a call logs. *)
Definition recOf (c : call) : record :=
  match c with
  | CallSet key val => Rec opSet key val
  | CallDel key => Rec opDel key []
  end.

Definition callInBounds (c : call) : Prop := validRec (recOf c).

(** An empty log file, with the given schedule of faults. *)
Definition freshFile (faults : list (option nat)) : os.File :=
  {| os.content := []; os.faults := faults |}.

(** Close the store, then open the file again (read without device
    faults). *)
Definition reopen (kv : KV) (fsyncEvery : Z) : option (error + KV) :=
  let '(_, kv) := KV_Close kv in
  OpenKV (f (wal kv)) None fsyncEvery.

(** The table found after the calls [cs] on a fresh store, all of them
    successful, a close and a reopen. *)
Definition tableAfterReopen (faults : list (option nat)) (fsyncEvery : Z)
    (cs : list call) : option (gmap (list byte) (list byte)) :=
  match OpenKV (freshFile faults) None fsyncEvery with
  | Some (inr kv0) =>
      match runCalls kv0 cs with
      | Some kv =>
          match reopen kv fsyncEvery with
          | Some (inr kv') => Some (mem kv')
          | _ => None
          end
      | None => None
      end
  | _ => None
  end.

(** ** The record layout, in the words of the format table *)

(** Four bytes, least significant first. *)
Definition le32 (n : Z) : list byte := le_split 4 n.

(** op, keyLen, valLen, key, value, then the CRC-32 of all of these. *)
Definition recordBytes (op : byte) (key val : list byte) : list byte :=
  let covered := [op] ++ le32 (len key) ++ le32 (len val) ++ key ++ val in
  covered ++ le32 (crc32.bitwise covered).

(** ** Sample data *)

Definition keyA : list byte := bytes [97].        (* "a" *)
Definition keyB : list byte := bytes [98].        (* "b" *)
Definition keyK : list byte := bytes [107].       (* "k" *)
Definition val1 : list byte := bytes [49].        (* "1" *)
Definition val22 : list byte := bytes [50; 50].   (* "22" *)

Definition recA : record := Rec opSet keyA val1.
Definition recB : record := Rec opSet keyB val22.

(** A store just opened on an empty file, with a schedule of faults. *)
Definition freshKV (faults : list (option nat)) (fsyncEvery : Z) : KV :=
  {| mem := ∅; wal := OpenWAL (freshFile faults); fsyncEvery := fsyncEvery |}.



(** ** Runs of calls that may fail *)

(** The append step of a call. *)
Definition appendOf (kv : KV) (c : call) : option error * WAL :=
  WAL_appendRecord (wal kv) (r_op (recOf c)) (r_key (recOf c)) (r_val (recOf c)).

(** Every call is made, whatever the ones before it returned. *)
Definition runAll (kv : KV) (cs : list call) : KV :=
  fold_left (fun kv c => snd (doCall kv c)) cs kv.

(** The calls of a run that returned nil. *)
Fixpoint succeeded (kv : KV) (cs : list call) : list call :=
  match cs with
  | [] => []
  | c :: cs =>
      match doCall kv c with
      | (None, kv') => c :: succeeded kv' cs
      | (Some _, kv') => succeeded kv' cs
      end
  end.

(** The calls of a run whose append step returned nil. *)
Fixpoint logged (kv : KV) (cs : list call) : list call :=
  match cs with
  | [] => []
  | c :: cs =>
      match appendOf kv c with
      | (None, _) => c :: logged (snd (doCall kv c)) cs
      | (Some _, _) => logged (snd (doCall kv c)) cs
      end
  end.

(** A read handle whose device fails after [k] more bytes. *)
Definition freader (data : list byte) (k : nat) : bufio.Reader :=
  bufio.NewReaderSize data (Some k).

(** A callback for [Replay] that keeps every record it is given. *)
Definition collect (op : byte) (key val : list byte) (l : list record)
  : list record :=
  l ++ [Rec op key val].

(** ** hash/fnv: the 32-bit FNV-1a hash *)
Module fnv.

Definition offset32 : Z := 2166136261.
Definition prime32 : Z := 16777619.

(** [fnv.New32a()]: the running hash. *)
Definition New32a : Z := offset32.

(** The method [Write] of [sum32a]: [hash ^= c; hash *= prime32] for every byte. *)
Definition Write (h : Z) (data : list byte) : Z :=
  fold_left (fun hash c => uint32 (Z.lxor hash (byte.unsigned c) * prime32))
            data h.

Definition Sum32 (h : Z) : Z := h.

End fnv.

(** ** The program: the sharded map *)
Section ShardedModel.
Context {K : Type} `{Countable K} {V : Type}.

(** The bytes [fmt.Fprint(h, key)] writes for a key. *)
Variable Fprint : K -> list byte.

(** [type Sharded]: the maps of the shards (the locks are not modelled). *)
Record Sharded : Type := { shards : list (gmap K V) }.

Definition NewSharded (n : nat) : Sharded := {| shards := replicate n ∅ |}.

(** [s.shardOf(key)]: [int(h.Sum32()) % len(s.shards)], with a 64-bit
    [int]; [None] is the panic of a division by zero. *)
Definition shardOf (s : Sharded) (key : K) : option nat :=
  let h := fnv.New32a in
  let h := fnv.Write h (Fprint key) in
  if len (shards s) =? 0 then None
  else Some (Z.to_nat (Z.rem (fnv.Sum32 h) (len (shards s)))).

(** [s.Get(key)]: the value and whether it was found; [None] is a panic
    (division by zero, index out of range). *)
Definition Sharded_Get (s : Sharded) (key : K) : option (option V) :=
  match shardOf s key with
  | None => None
  | Some i =>
      match shards s !! i with
      | None => None
      | Some m => Some (m !! key)
      end
  end.

(** [s.Put(key, v)]: the map afterwards; [None] is a panic. *)
Definition Sharded_Put (s : Sharded) (key : K) (v : V) : option Sharded :=
  match shardOf s key with
  | None => None
  | Some i =>
      match shards s !! i with
      | None => None
      | Some m => Some {| shards := <[i := <[key := v]> m]> (shards s) |}
      end
  end.


End ShardedModel.

Arguments Sharded K {_ _} V.

(** The state of a store whose log started well formed: either the
    writer is clean and the file holds the records [rs], or an append has
    failed and the file holds [rs] and a proper prefix of one more record
    within the size bounds. *)
Definition logState (rs : list record) (kv : KV) : Prop :=
  (clean (wal kv) /\ os.content (f (wal kv)) = encodeLog rs)
  \/ (exists r, validRec r /\ Bad (encodeLog rs) (encodeRec r) (bufw (wal kv))).
(** * Properties *)

(** ** Little-endian words *)

Lemma PutUint32_le_split v : binary.PutUint32 v = le_split 4 v.
Proof.
  unfold binary.PutUint32. cbv [le_split].
  rewrite !Z.shiftr_shiftr by lia. reflexivity.
Qed.

Lemma Uint32_le_combine b0 b1 b2 b3 l :
  binary.Uint32 (b0 :: b1 :: b2 :: b3 :: l) = le_combine [b0; b1; b2; b3].
Proof.
  unfold binary.Uint32. cbv [le_combine].
  rewrite Z.shiftl_0_l, Z.lor_0_r.
  rewrite !Z.shiftl_lor, !Z.shiftl_shiftl by lia.
  rewrite !Z.lor_assoc. reflexivity.
Qed.

Lemma length_PutUint32 v : length (binary.PutUint32 v) = 4%nat.
Proof. reflexivity. Qed.

Lemma Uint32_PutUint32 v l :
  binary.Uint32 (binary.PutUint32 v ++ l) = v mod 2 ^ 32.
Proof.
  unfold binary.PutUint32. cbn [app]. rewrite Uint32_le_combine.
  change [byte.of_Z v; byte.of_Z (v ≫ 8); byte.of_Z (v ≫ 16);
          byte.of_Z (v ≫ 24)] with (binary.PutUint32 v).
  rewrite PutUint32_le_split, le_combine_split. reflexivity.
Qed.

Lemma Uint32_PutUint32_id v : binary.Uint32 (binary.PutUint32 v) = v mod 2 ^ 32.
Proof. rewrite <- (app_nil_r (binary.PutUint32 v)). apply Uint32_PutUint32. Qed.

Lemma PutUint32_inj u v :
  0 <= u < 2 ^ 32 -> 0 <= v < 2 ^ 32 ->
  binary.PutUint32 u = binary.PutUint32 v -> u = v.
Proof.
  intros Hu Hv E.
  assert (binary.Uint32 (binary.PutUint32 u ++ []) =
          binary.Uint32 (binary.PutUint32 v ++ [])) as E' by (now rewrite E).
  rewrite !Uint32_PutUint32, !Z.mod_small in E' by assumption. exact E'.
Qed.

Lemma len_app {A} (l1 l2 : list A) : len (l1 ++ l2) = len l1 + len l2.
Proof. unfold len. rewrite length_app. lia. Qed.

Lemma len_nonneg {A} (l : list A) : 0 <= len l.
Proof. unfold len. lia. Qed.

(** ** The checksum *)

Lemma lxor_range n a b : 0 <= n -> 0 <= a < 2 ^ n -> 0 <= b < 2 ^ n -> 0 <= Z.lxor a b < 2 ^ n.
Proof.
  intros Hn Ha Hb.
  apply Z.bounded_iff_bits_nonneg'; [lia | apply Z.lxor_nonneg; lia |].
  intros l Hl. rewrite Z.lxor_spec.
  rewrite (proj1 (Z.bounded_iff_bits_nonneg' n a Hn ltac:(lia)) Ha l Hl).
  rewrite (proj1 (Z.bounded_iff_bits_nonneg' n b Hn ltac:(lia)) Hb l Hl).
  reflexivity.
Qed.


Lemma not32_involutive c : crc32.not32 (crc32.not32 c) = c.
Proof. unfold crc32.not32. rewrite Z.lxor_assoc, Z.lxor_nilpotent. apply Z.lxor_0_r. Qed.

Lemma update_app c p q : crc32.update (crc32.update c p) q = crc32.update c (p ++ q).
Proof. unfold crc32.update. rewrite not32_involutive, fold_left_app. reflexivity. Qed.

Lemma update_nil c : crc32.update c [] = c.
Proof. apply not32_involutive. Qed.


Lemma table_word32 : Forall word32 crc32.IEEETable.
Proof. apply (bool_decide_unpack _). vm_compute. exact I. Qed.

Lemma tab_range i : word32 (crc32.tab i).
Proof.
  unfold crc32.tab.
  destruct (Nat.lt_ge_cases (Z.to_nat i) (length crc32.IEEETable)) as [H|H].
  - apply Forall_nth; [apply table_word32 | exact H].
  - rewrite nth_overflow by exact H. unfold word32. lia.
Qed.

Lemma shiftr8_range c : word32 c -> 0 <= Z.shiftr c 8 < 2 ^ 24.
Proof.
  unfold word32. intros H. rewrite Z.shiftr_div_pow2 by lia.
  split; [apply Z.div_pos; lia | apply Z.div_lt_upper_bound; lia].
Qed.

Lemma land255_range c : 0 <= Z.land c 255 < 2 ^ 8.
Proof.
  change 255 with (Z.ones 8). rewrite Z.land_ones by lia.
  apply Z.mod_pos_bound. lia.
Qed.


Lemma update1_range c v : word32 c -> word32 (crc32.update1 c v).
Proof.
  intros H. unfold crc32.update1. apply lxor_range; [lia | apply tab_range |].
  pose proof (shiftr8_range c H). lia.
Qed.

Lemma not32_range c : word32 c -> word32 (crc32.not32 c).
Proof. intros H. apply lxor_range; [lia | exact H | lia]. Qed.

Lemma fold_update1_range p : forall c, word32 c -> word32 (fold_left crc32.update1 p c).
Proof.
  induction p as [|v p IH]; intros c H; [exact H|].
  cbn [fold_left]. apply IH, update1_range, H.
Qed.

Lemma update_range c p : word32 c -> word32 (crc32.update c p).
Proof. intros H. apply not32_range, fold_update1_range, not32_range, H. Qed.











(** *** The table-driven update is the bit-serial one *)

Lemma table_entries :
  crc32.IEEETable = map (fun i => crc32.entry crc32.IEEE (Z.of_nat i)) (seq 0 256).
Proof. vm_compute. reflexivity. Qed.

Lemma tab_entry i : 0 <= i < 2 ^ 8 -> crc32.tab i = crc32.entry crc32.IEEE i.
Proof.
  intros Hi. unfold crc32.tab. rewrite table_entries.
  change 0 with ((fun i => crc32.entry crc32.IEEE (Z.of_nat i)) 0%nat) at 1.
  rewrite map_nth, seq_nth by lia. f_equal. lia.
Qed.

Lemma land_lxor_distr a b c :
  Z.land (Z.lxor a b) c = Z.lxor (Z.land a c) (Z.land b c).
Proof.
  apply Z.bits_inj'. intros n _.
  rewrite !Z.lxor_spec, !Z.land_spec, Z.lxor_spec.
  destruct (Z.testbit a n), (Z.testbit b n), (Z.testbit c n); reflexivity.
Qed.

Lemma land1_cases a : Z.land a 1 = 0 \/ Z.land a 1 = 1.
Proof.
  assert (Z.land a 1 = a mod 2) as ->.
  { change 1 with (Z.ones 1). rewrite Z.land_ones by lia. reflexivity. }
  pose proof (Z.mod_pos_bound a 2). lia.
Qed.

Lemma shift1_lxor p a b :
  crc32.shift1 p (Z.lxor a b) = Z.lxor (crc32.shift1 p a) (crc32.shift1 p b).
Proof.
  unfold crc32.shift1. rewrite land_lxor_distr, Z.shiftr_lxor.
  destruct (land1_cases a) as [-> | ->], (land1_cases b) as [-> | ->]; cbn.
  - reflexivity.
  - now rewrite Z.lxor_assoc.
  - rewrite !Z.lxor_assoc. f_equal. apply Z.lxor_comm.
  - rewrite !Z.lxor_assoc. f_equal.
    rewrite (Z.lxor_comm p), Z.lxor_assoc, Z.lxor_nilpotent, Z.lxor_0_r.
    reflexivity.
Qed.

Lemma iter_shift1_lxor p n a b :
  Nat.iter n (crc32.shift1 p) (Z.lxor a b) =
  Z.lxor (Nat.iter n (crc32.shift1 p) a) (Nat.iter n (crc32.shift1 p) b).
Proof.
  induction n as [|n IH]; [reflexivity|].
  rewrite !Nat.iter_succ, IH. apply shift1_lxor.
Qed.

Lemma shift1_shiftl p y m :
  0 <= m -> crc32.shift1 p (Z.shiftl y (m + 1)) = Z.shiftl y m.
Proof.
  intros Hm. unfold crc32.shift1.
  assert (Z.land (Z.shiftl y (m + 1)) 1 = 0) as ->.
  { replace (Z.land (Z.shiftl y (m + 1)) 1) with (Z.shiftl y (m + 1) mod 2)
      by (symmetry; apply (Z.land_ones _ 1); lia).
    rewrite Z.shiftl_mul_pow2, Z.pow_add_r by lia.
    change (2 ^ 1) with 2. rewrite Z.mul_assoc. apply Z.mod_mul. lia. }
  cbn [Z.eqb]. rewrite Z.shiftr_shiftl_l by lia. f_equal. lia.
Qed.

Lemma iter8_shiftl p y :
  Nat.iter 8 (crc32.shift1 p) (Z.shiftl y 8) = y.
Proof.
  unfold Nat.iter. cbn [nat_rect].
  change 8 with (7 + 1) at 1. rewrite shift1_shiftl by lia.
  change 7 with (6 + 1). rewrite shift1_shiftl by lia.
  change 6 with (5 + 1). rewrite shift1_shiftl by lia.
  change 5 with (4 + 1). rewrite shift1_shiftl by lia.
  change 4 with (3 + 1). rewrite shift1_shiftl by lia.
  change 3 with (2 + 1). rewrite shift1_shiftl by lia.
  change 2 with (1 + 1). rewrite shift1_shiftl by lia.
  change 1 with (0 + 1). rewrite shift1_shiftl by lia.
  apply Z.shiftl_0_r.
Qed.

Lemma split_low8 x :
  x = Z.lxor (Z.land x 255) (Z.shiftl (Z.shiftr x 8) 8).
Proof.
  change 255 with (Z.ones 8). apply Z.bits_inj'. intros n Hn.
  rewrite Z.lxor_spec, Z.land_spec, Z.testbit_ones_nonneg by lia.
  destruct (Z.ltb_spec n 8) as [H|H].
  - rewrite Z.shiftl_spec_low by lia.
    now rewrite andb_true_r, xorb_false_r.
  - rewrite Z.shiftl_spec, Z.shiftr_spec by lia.
    rewrite andb_false_r. cbn [xorb]. f_equal. lia.
Qed.

Lemma iter8_table x :
  Nat.iter 8 (crc32.shift1 crc32.IEEE) x =
  Z.lxor (crc32.tab (Z.land x 255)) (Z.shiftr x 8).
Proof.
  rewrite (split_low8 x) at 1.
  rewrite iter_shift1_lxor, iter8_shiftl, tab_entry by apply land255_range.
  reflexivity.
Qed.

Lemma bitwise1_update1 c v : 0 <= c -> crc32.bitwise1 c v = crc32.update1 c v.
Proof.
  intros Hc. unfold crc32.bitwise1, crc32.update1. rewrite iter8_table.
  rewrite land_lxor_distr, Z.shiftr_lxor. f_equal.
  - f_equal. f_equal. change 255 with (Z.ones 8). rewrite Z.land_ones by lia.
    apply Z.mod_small, byte.unsigned_range.
  - rewrite (Z.shiftr_div_pow2 (byte.unsigned v)) by lia.
    rewrite (Z.div_small (byte.unsigned v)) by apply byte.unsigned_range.
    apply Z.lxor_0_r.
Qed.

Lemma fold_bitwise1 p : forall c, word32 c ->
  fold_left crc32.bitwise1 p c = fold_left crc32.update1 p c.
Proof.
  induction p as [|v p IH]; intros c Hc; [reflexivity|].
  cbn [fold_left]. rewrite bitwise1_update1 by (unfold word32 in Hc; lia).
  apply IH, update1_range, Hc.
Qed.

(** Go's table-driven checksum is the bit-serial CRC-32. *)
Lemma ChecksumIEEE_bitwise data : crc32.ChecksumIEEE data = crc32.bitwise data.
Proof.
  unfold crc32.ChecksumIEEE, crc32.update, crc32.bitwise.
  rewrite fold_bitwise1 by (unfold word32; lia). reflexivity.
Qed.

(** The check value of CRC-32 on the ASCII digits 123456789. *)
Example crc32_check_value :
  crc32.ChecksumIEEE (map byte.of_Z [49;50;51;52;53;54;55;56;57]) = 0xCBF43926
  /\ crc32.bitwise (map byte.of_Z [49;50;51;52;53;54;55;56;57]) = 0xCBF43926.
Proof. split; vm_compute; reflexivity. Qed.

(** ** Reading *)

Lemma ReadFull_app xs r :
  io.ReadFull (reader (xs ++ r)) (length xs) = ((xs, None), reader r).
Proof.
  unfold io.ReadFull, io.avail, io.advance, reader, bufio.NewReaderSize.
  cbn [bufio.rest bufio.fault].
  rewrite length_app.
  destruct (Nat.leb_spec (length xs) (length xs + length r)) as [_|H]; [|lia].
  rewrite firstn_app, Nat.sub_diag, firstn_all, firstn_0, app_nil_r.
  rewrite skipn_app, Nat.sub_diag, skipn_all. reflexivity.
Qed.

Lemma ReadFull_exact xs r n :
  length xs = n ->
  io.ReadFull (reader (xs ++ r)) n = ((xs, None), reader r).
Proof. intros <-. apply ReadFull_app. Qed.

Lemma ReadFull_short data n :
  (length data < n)%nat ->
  exists bs e br, io.ReadFull (reader data) n = ((bs, Some e), br)
                  /\ (e = EOF \/ e = ErrUnexpectedEOF).
Proof.
  intros H. unfold io.ReadFull, io.avail, reader, bufio.NewReaderSize.
  cbn [bufio.rest bufio.fault].
  destruct (Nat.leb_spec n (length data)) as [H'|_]; [lia|].
  do 3 eexists. split; [reflexivity|].
  destruct (length data =? 0)%nat; auto.
Qed.

(** A successful read consumes what it returns. *)
Lemma ReadFull_ok br n bs br' :
  io.ReadFull br n = ((bs, None), br') ->
  length bs = n /\ length (bufio.rest br') = (length (bufio.rest br) - n)%nat
  /\ (n <= length (bufio.rest br))%nat.
Proof.
  unfold io.ReadFull.
  destruct (Nat.leb_spec n (io.avail br)) as [H|H]; [|discriminate].
  intros [= <- <-]. cbn [io.advance bufio.rest].
  assert (n <= length (bufio.rest br))%nat as Hn.
  { unfold io.avail in H. destruct (bufio.fault br); lia. }
  rewrite length_firstn, length_skipn. lia.
Qed.

(** *** The header *)

Lemma length_mkHeader op key val : length (mkHeader op key val) = 9%nat.
Proof. reflexivity. Qed.

Lemma header_op op key val : nth 0 (mkHeader op key val) Byte.x00 = op.
Proof. reflexivity. Qed.

Lemma header_keyLen op key val :
  binary.Uint32 (slice (mkHeader op key val) 1 5) = uint32 (len key).
Proof.
  unfold mkHeader, slice, binary.PutUint32. cbn [app skipn firstn Nat.sub].
  rewrite Uint32_le_combine.
  change [byte.of_Z ?v; byte.of_Z (?v ≫ 8); byte.of_Z (?v ≫ 16);
          byte.of_Z (?v ≫ 24)] with (binary.PutUint32 v).
  rewrite PutUint32_le_split, le_combine_split.
  unfold uint32. apply Z.mod_mod. lia.
Qed.

Lemma header_valLen op key val :
  binary.Uint32 (slice (mkHeader op key val) 5 9) = uint32 (len val).
Proof.
  unfold mkHeader, slice, binary.PutUint32. cbn [app skipn firstn Nat.sub].
  rewrite Uint32_le_combine.
  change [byte.of_Z ?v; byte.of_Z (?v ≫ 8); byte.of_Z (?v ≫ 16);
          byte.of_Z (?v ≫ 24)] with (binary.PutUint32 v).
  rewrite PutUint32_le_split, le_combine_split.
  unfold uint32. apply Z.mod_mod. lia.
Qed.

Lemma uint32_small n : 0 <= n < 2 ^ 32 -> uint32 n = n.
Proof. apply Z.mod_small. Qed.

Lemma inBounds_lens key val :
  inBounds key val ->
  uint32 (len key) = len key /\ uint32 (len val) = len val.
Proof.
  unfold inBounds, maxKey, maxVal. intros [Hk Hv].
  pose proof (len_nonneg val).
  split; apply uint32_small; lia.
Qed.

Lemma inBounds_guard key val :
  inBounds key val ->
  (len key =? 0) || (maxKey <? len key) || (maxVal <? len val) = false.
Proof.
  unfold inBounds. intros [Hk Hv].
  rewrite !orb_false_iff, Z.eqb_neq, !Z.ltb_ge. lia.
Qed.

Lemma len_le_0 {A} (l : list A) : len l <= 0 -> l = [].
Proof.
  destruct l; [reflexivity|]. unfold len. cbn [length]. lia.
Qed.

(** The checksum is the CRC-32 of header, key and value, concatenated. *)
Lemma checksum_update header key val :
  checksum header key val = crc32.update 0 (header ++ key ++ val).
Proof.
  unfold checksum, crc32.Sum32, crc32.Write, crc32.NewIEEE.
  destruct (Z.ltb_spec 0 (len val)) as [H|H].
  - now rewrite !update_app.
  - apply len_le_0 in H as ->.
    now rewrite update_app, app_nil_r.
Qed.

Lemma checksum_range header key val : word32 (checksum header key val).
Proof. rewrite checksum_update. apply update_range. unfold word32. lia. Qed.

Lemma Z_to_nat_len {A} (l : list A) : Z.to_nat (len l) = length l.
Proof. unfold len. lia. Qed.

(** *** Decoding what was encoded *)

Lemma readRecord_encode op key val rest :
  inBounds key val ->
  readRecord (reader (encode op key val ++ rest))
  = (Decoded op key val, reader rest).
Proof.
  intros HB. destruct (inBounds_lens key val HB) as [Ek Ev].
  unfold readRecord, encode. rewrite <- !app_assoc.
  rewrite (ReadFull_exact (mkHeader op key val)) by reflexivity.
  rewrite header_op, header_keyLen, header_valLen, Ek, Ev.
  rewrite (inBounds_guard key val HB), Z_to_nat_len, ReadFull_app.
  assert ((if 0 <? len val
           then io.ReadFull (reader (val ++ binary.PutUint32
                   (checksum (mkHeader op key val) key val) ++ rest))
                  (Z.to_nat (len val))
           else (([], None), reader (val ++ binary.PutUint32
                   (checksum (mkHeader op key val) key val) ++ rest)))
          = ((val, None), reader (binary.PutUint32
                   (checksum (mkHeader op key val) key val) ++ rest))) as ->.
  { destruct (Z.ltb_spec 0 (len val)) as [H|H].
    - rewrite Z_to_nat_len. apply ReadFull_app.
    - apply len_le_0 in H as ->.
      reflexivity. }
  rewrite (ReadFull_exact (binary.PutUint32 _)) by reflexivity.
  rewrite Uint32_PutUint32_id.
  fold (checksum (mkHeader op key val) key val).
  rewrite (Z.mod_small _ _ (checksum_range _ _ _)), Z.eqb_refl.
  reflexivity.
Qed.

(** ** The loop of Replay *)

(** A decoded record was read off the front of the reader: header and
    checksum alone are thirteen bytes. *)
Lemma readRecord_consumes br op key val br' :
  readRecord br = (Decoded op key val, br') ->
  (length (bufio.rest br') < length (bufio.rest br))%nat.
Proof.
  unfold readRecord.
  destruct (io.ReadFull br 9) as [[header e1] br1] eqn:E1.
  destruct e1 as [e1|].
  { destruct (bool_decide (e1 = EOF) || bool_decide (e1 = ErrUnexpectedEOF));
      discriminate. }
  apply ReadFull_ok in E1 as (_ & L1 & N1).
  destruct (_ || _); [discriminate|].
  destruct (io.ReadFull br1 _) as [[key' e2] br2] eqn:E2.
  destruct e2; [discriminate|].
  apply ReadFull_ok in E2 as (_ & L2 & _).
  destruct (0 <? _).
  - destruct (io.ReadFull br2 _) as [[val' e3] br3] eqn:E3.
    destruct e3; [discriminate|].
    apply ReadFull_ok in E3 as (_ & L3 & _).
    destruct (io.ReadFull br3 4) as [[crc e4] br4] eqn:E4.
    destruct e4; [discriminate|].
    apply ReadFull_ok in E4 as (_ & L4 & _).
    destruct (_ =? _); [|discriminate]. intros [= _ _ _ <-]. lia.
  - destruct (io.ReadFull br2 4) as [[crc e4] br4] eqn:E4.
    destruct e4; [discriminate|].
    apply ReadFull_ok in E4 as (_ & L4 & _).
    destruct (_ =? _); [|discriminate]. intros [= _ _ _ <-]. lia.
Qed.

Section Loop.
Context {S : Type} (apply : byte -> list byte -> list byte -> S -> S).

(** Any number of turns above the number of unread bytes gives the same
    result. *)
Lemma replayLoop_fuel n : forall m br st,
  (length (bufio.rest br) < n)%nat -> (length (bufio.rest br) < m)%nat ->
  replayLoop n br apply st = replayLoop m br apply st.
Proof.
  induction n as [|n IH]; intros [|m] br st Hn Hm; try lia.
  cbn [replayLoop].
  destruct (readRecord br) as [[op key val| | |e] br'] eqn:E; try reflexivity.
  apply readRecord_consumes in E. apply IH; lia.
Qed.

(** The loop returns: it never runs out of turns. *)
Lemma replayLoop_returns n : forall br st,
  (length (bufio.rest br) < n)%nat ->
  exists e st' br', replayLoop n br apply st = Some (e, st', br').
Proof.
  induction n as [|n IH]; intros br st Hn; [lia|].
  cbn [replayLoop].
  destruct (readRecord br) as [[op key val| | |e] br'] eqn:E; eauto.
  apply readRecord_consumes in E. apply IH; lia.
Qed.

(** A complete record in bounds at the front is applied, and the loop
    goes on behind it. *)
Lemma replay_step op key val rest st :
  inBounds key val ->
  replay (encode op key val ++ rest) apply st
  = replay rest apply (apply op key val st).
Proof.
  intros HB. unfold replay.
  transitivity (replayLoop (length (encode op key val ++ rest))
                  (reader rest) apply (apply op key val st)).
  { cbn [replayLoop]. now rewrite (readRecord_encode op key val rest HB). }
  apply replayLoop_fuel; unfold reader; cbn [bufio.rest bufio.NewReaderSize].
  - rewrite length_app. unfold encode, mkHeader. rewrite length_app.
    cbn [length]. lia.
  - lia.
Qed.

Lemma replay_log rs : forall rest st,
  Forall validRec rs ->
  replay (encodeLog rs ++ rest) apply st
  = replay rest apply
      (fold_left (fun s r => apply (r_op r) (r_key r) (r_val r) s) rs st).
Proof.
  induction rs as [|r rs IH]; intros rest st HV; [reflexivity|].
  apply Forall_cons in HV as [Hr HV].
  cbn [encodeLog flat_map fold_left]. rewrite <- app_assoc.
  unfold encodeRec at 1. rewrite replay_step by exact Hr.
  apply IH, HV.
Qed.

(** The loop stops, without error, where the reader has no record. *)
Lemma replay_stop data st br' :
  readRecord (reader data) = (EndOfStream, br')
  \/ readRecord (reader data) = (Corrupt, br') ->
  replay data apply st = Some (None, st, br').
Proof.
  unfold replay. cbn [replayLoop]. intros [-> | ->]; reflexivity.
Qed.

End Loop.

Lemma WAL_Replay_replay {S : Type} w
    (apply : byte -> list byte -> list byte -> S -> S) st :
  WAL_Replay w None apply st = replay (os.content (f w)) apply st.
Proof. reflexivity. Qed.

(** [Replay] returns, whatever the file holds and whatever the device
    does. *)
Lemma Replay_returns {S : Type} w rfault
    (apply : byte -> list byte -> list byte -> S -> S) st :
  exists e st' br', WAL_Replay w rfault apply st = Some (e, st', br').
Proof.
  unfold WAL_Replay. apply replayLoop_returns.
  cbn [bufio.NewReaderSize bufio.rest]. lia.
Qed.

(** [OpenKV] returns a store or an error. *)
Lemma OpenKV_returns file rfault fs :
  exists r, OpenKV file rfault fs = Some r.
Proof.
  unfold OpenKV.
  destruct (Replay_returns (OpenWAL file) rfault applyRecord ∅)
    as (e & m & br & ->).
  destruct e; eauto.
Qed.


(** ** Torn records *)

Lemma ReadFull_prefix_ok xs ys k :
  (length xs <= k)%nat ->
  io.ReadFull (reader (firstn k (xs ++ ys))) (length xs)
  = ((xs, None), reader (firstn (k - length xs) ys)).
Proof.
  intros H. rewrite firstn_app, (firstn_all2 xs) by exact H.
  apply ReadFull_app.
Qed.

Lemma ReadFull_prefix_short xs ys k :
  (k < length xs)%nat ->
  exists bs e br,
    io.ReadFull (reader (firstn k (xs ++ ys))) (length xs) = ((bs, Some e), br)
    /\ (e = EOF \/ e = ErrUnexpectedEOF).
Proof.
  intros H. apply ReadFull_short. rewrite length_firstn. lia.
Qed.

Lemma length_encode op key val :
  length (encode op key val) = (9 + length key + length val + 4)%nat.
Proof.
  unfold encode. rewrite !length_app, length_mkHeader, length_PutUint32. lia.
Qed.

(** A record cut short anywhere before its last byte is not decoded. *)
Lemma readRecord_torn op key val k :
  inBounds key val ->
  (k < length (encode op key val))%nat ->
  exists br',
    readRecord (reader (firstn k (encode op key val))) = (EndOfStream, br')
    \/ readRecord (reader (firstn k (encode op key val))) = (Corrupt, br').
Proof.
  intros HB Hk. rewrite length_encode in Hk.
  destruct (inBounds_lens key val HB) as [Ek Ev].
  unfold readRecord, encode.
  set (h := mkHeader op key val). set (crc := binary.PutUint32 _).
  change 9%nat with (length h).
  destruct (Nat.lt_ge_cases k (length h)) as [H9|H9].
  { destruct (ReadFull_prefix_short h (key ++ val ++ crc) k H9)
      as (bs & e & br & -> & [-> | ->]); eauto. }
  rewrite ReadFull_prefix_ok by exact H9. subst h.
  rewrite header_keyLen, header_valLen, Ek, Ev.
  rewrite (inBounds_guard key val HB), !Z_to_nat_len.
  rewrite length_mkHeader in *. set (k1 := (k - 9)%nat).
  destruct (Nat.lt_ge_cases k1 (length key)) as [Hkey|Hkey].
  { destruct (ReadFull_prefix_short key (val ++ crc) k1 Hkey)
      as (bs & e & br & -> & _); eauto. }
  rewrite ReadFull_prefix_ok by exact Hkey. set (k2 := (k1 - length key)%nat).
  destruct (Z.ltb_spec 0 (len val)) as [Hv|Hv].
  - destruct (Nat.lt_ge_cases k2 (length val)) as [Hval|Hval].
    { destruct (ReadFull_prefix_short val crc k2 Hval)
        as (bs & e & br & -> & _); eauto. }
    rewrite ReadFull_prefix_ok by exact Hval.
    destruct (ReadFull_short (firstn (k2 - length val) crc) 4)
      as (bs & e & br & -> & _); eauto.
    rewrite length_firstn. lia.
  - apply len_le_0 in Hv. subst val. cbn [app length] in *.
    destruct (ReadFull_short (firstn k2 crc) 4)
      as (bs & e & br & -> & _); eauto.
    rewrite length_firstn. lia.
Qed.

Lemma recovered_log rs rest :
  Forall validRec rs ->
  recovered (encodeLog rs ++ rest)
  = match replay rest applyRecord (applyAll rs ∅) with
    | Some (e, m, _) => Some (e, m)
    | None => None
    end.
Proof.
  intros HV. unfold recovered. rewrite replay_log by exact HV. reflexivity.
Qed.

Lemma recovered_stop rs rest br' :
  Forall validRec rs ->
  readRecord (reader rest) = (EndOfStream, br')
  \/ readRecord (reader rest) = (Corrupt, br') ->
  recovered (encodeLog rs ++ rest) = Some (None, applyAll rs ∅).
Proof.
  intros HV H. rewrite recovered_log by exact HV.
  now rewrite (replay_stop applyRecord rest _ br' H).
Qed.

Lemma OpenKV_recovered file fs e m :
  recovered (os.content file) = Some (e, m) ->
  OpenKV file None fs
  = Some (match e with
          | Some e => inl e
          | None => inr {| mem := m; wal := OpenWAL file; fsyncEvery := fs |}
          end).
Proof.
  unfold recovered, OpenKV. rewrite WAL_Replay_replay.
  change (os.content (f (OpenWAL file))) with (os.content file).
  destruct (replay (os.content file) applyRecord ∅) as [[[e' m'] br]|];
    [|discriminate].
  intros [= -> ->]. destruct e; reflexivity.
Qed.

Lemma encodeLog_app rs rs' : encodeLog (rs ++ rs') = encodeLog rs ++ encodeLog rs'.
Proof. apply flat_map_app. Qed.

Lemma encodeLog_one r : encodeLog [r] = encodeRec r.
Proof. unfold encodeLog. cbn [flat_map]. apply app_nil_r. Qed.

(** ** Damaged records *)







(** ** Writing *)

Lemma os_Write_ok file p n file' :
  os.Write file p = ((n, None), file') ->
  n = length p /\ os.content file' = os.content file ++ p.
Proof.
  unfold os.Write. destruct (os.faults file) as [|[k|] fs]; intros [= <- <-];
    auto.
Qed.

Lemma os_Write_err file p n e file' :
  os.Write file p = ((n, Some e), file') -> p <> [] ->
  (n < length p)%nat /\ os.content file' = os.content file ++ firstn n p.
Proof.
  unfold os.Write. destruct (os.faults file) as [|[k|] fs]; intros [= <- <- <-];
    intros Hp; cbn [os.content].
  split; [|reflexivity]. destruct p; [congruence|]. cbn [length]. lia.
Qed.

Lemma os_Write_noFaults file p :
  noFaults file ->
  exists file', os.Write file p = ((length p, None), file')
                /\ noFaults file'.
Proof.
  unfold noFaults, os.Write. intros ->. eexists. split; reflexivity.
Qed.

Lemma Bad_extend c0 s x b : Bad c0 s b -> Bad c0 (s ++ x) b.
Proof.
  intros (He & w & t & Hc & Hs & Ht). split; [exact He|].
  exists w, (t ++ x). rewrite app_assoc, Hs. repeat split; auto.
  destruct t; [congruence | discriminate].
Qed.

Lemma len_0_nil {A} (l : list A) : len l = 0 -> l = [].
Proof. intros H. apply len_le_0. lia. Qed.

(** [Flush] empties the buffer into the file, or fails before its last
    byte. *)
Lemma Flush_Good c0 s b :
  Good c0 s b ->
  match bufio.Flush b with
  | (None, b') => Good c0 s b' /\ bufio.buf b' = []
  | (Some _, b') => Bad c0 s b'
  end.
Proof.
  intros (He & w & Hc & Hs). unfold bufio.Flush. rewrite He.
  unfold bufio.Buffered. destruct (Z.eqb_spec (len (bufio.buf b)) 0) as [H0|H0].
  { apply len_0_nil in H0. split; [|exact H0]. split; [exact He|]. eauto. }
  assert (bufio.buf b <> []) as Hne by (intros E; rewrite E in H0; now apply H0).
  destruct (os.Write (bufio.wr b) (bufio.buf b)) as [[n [e|]] file'] eqn:EW.
  - apply os_Write_err in EW as [Hn Hc']; [|exact Hne].
    split; [discriminate|]. cbn [bufio.wr].
    exists (w ++ firstn n (bufio.buf b)), (skipn n (bufio.buf b)).
    rewrite Hc', Hc, <- !app_assoc, firstn_skipn. repeat split; auto.
    intros E. apply (f_equal (@length _)) in E.
    rewrite length_skipn in E. cbn in E. lia.
  - apply os_Write_ok in EW as [-> Hc']. rewrite Nat.ltb_irrefl.
    split; [|reflexivity]. split; [reflexivity|]. cbn [bufio.wr bufio.buf].
    exists s. rewrite app_nil_r, Hc', Hc, <- app_assoc, Hs. auto.
Qed.

Lemma Flush_Bad b : bufio.err b <> None -> exists e, bufio.Flush b = (Some e, b).
Proof.
  unfold bufio.Flush. destruct (bufio.err b); [eauto | congruence].
Qed.

(** One turn of the loop of [Write] moves a part [q] of what is left of
    [p] towards the file. *)
Lemma turn_Good c0 s b p :
  Good c0 s b ->
  exists q, p = q ++ snd (bufio.turn (b, p)) /\
    (Good c0 (s ++ q) (fst (bufio.turn (b, p)))
     \/ Bad c0 (s ++ p) (fst (bufio.turn (b, p)))).
Proof.
  intros HG. unfold bufio.turn.
  destruct (bufio.guard (b, p)) eqn:EG; cbn [fst snd].
  2: { exists []. rewrite app_nil_r. auto. }
  unfold bufio.guard in EG. cbn [fst snd] in EG.
  apply andb_prop in EG as [EG _]. apply Z.ltb_lt in EG.
  destruct HG as (He & w & Hc & Hs).
  unfold bufio.body, bufio.Buffered.
  destruct (Z.eqb_spec (len (bufio.buf b)) 0) as [H0|H0].
  - (* direct write *)
    apply len_0_nil in H0. rewrite H0, app_nil_r in Hs. subst w.
    assert (p <> []) as Hp.
    { intros ->. unfold bufio.Available, bufio.size in EG.
      rewrite H0 in EG. unfold len in EG. cbn [length] in EG. lia. }
    destruct (os.Write (bufio.wr b) p) as [[n [e|]] file'] eqn:EW;
      cbn [fst snd].
    + apply os_Write_err in EW as [Hn Hc']; [|exact Hp].
      exists (firstn n p). rewrite firstn_skipn. split; [reflexivity|].
      right. split; [discriminate|]. cbn [bufio.wr].
      exists (s ++ firstn n p), (skipn n p).
      rewrite Hc', Hc, <- !app_assoc, firstn_skipn. repeat split; auto.
      intros E. apply (f_equal (@length _)) in E.
      rewrite length_skipn in E. cbn in E. lia.
    + apply os_Write_ok in EW as [-> Hc'].
      exists p. rewrite skipn_all, app_nil_r. split; [reflexivity|].
      left. split; [reflexivity|]. cbn [bufio.wr bufio.buf].
      exists (s ++ p). rewrite H0, app_nil_r, Hc', Hc, <- app_assoc. auto.
  - (* fill the buffer, flush *)
    set (n := Z.to_nat (Z.min (bufio.Available b) (len p))).
    set (b1 := {| bufio.wr := bufio.wr b;
                  bufio.buf := bufio.buf b ++ firstn n p;
                  bufio.err := bufio.err b |}).
    assert (Good c0 (s ++ firstn n p) b1) as HG1.
    { split; [exact He|]. exists w. cbn [bufio.wr bufio.buf b1].
      rewrite app_assoc, Hs. auto. }
    apply Flush_Good in HG1. cbn [fst snd].
    exists (firstn n p). rewrite firstn_skipn. split; [reflexivity|].
    destruct (bufio.Flush b1) as [[e|] b2]; cbn [snd].
    + right. rewrite <- (firstn_skipn n p) at 1. rewrite app_assoc.
      apply Bad_extend, HG1.
    + left. apply HG1.
Qed.

Lemma turn_Bad b p : bufio.err b <> None -> bufio.turn (b, p) = (b, p).
Proof.
  intros He. unfold bufio.turn, bufio.guard. cbn [fst snd].
  rewrite (bool_decide_eq_false_2 _ He), andb_false_r. reflexivity.
Qed.

(** [Write] takes all of [p], or fails with only a proper prefix of the
    bytes handed over so far in the file. *)
Lemma Write_Good c0 s b p :
  Good c0 s b ->
  match bufio.Write b p with
  | (None, b') => Good c0 (s ++ p) b'
  | (Some _, b') => Bad c0 (s ++ p) b'
  end.
Proof.
  intros HG. unfold bufio.Write.
  destruct (turn_Good c0 s b p HG) as (q1 & Hp1 & H1).
  destruct (bufio.turn (b, p)) as [b1 p1] eqn:E1. cbn [fst snd] in *.
  destruct H1 as [H1|H1].
  - destruct (turn_Good c0 (s ++ q1) b1 p1 H1) as (q2 & Hp2 & H2).
    destruct (bufio.turn (b1, p1)) as [b2 p2] eqn:E2. cbn [fst snd] in *.
    assert (s ++ p = (s ++ q1) ++ p1) as Es
      by (rewrite Hp1 at 1; now rewrite app_assoc).
    destruct H2 as [H2|H2].
    + destruct H2 as (He2 & w & Hc & Hs). rewrite He2.
      split; [reflexivity|]. cbn [bufio.wr bufio.buf].
      exists w. split; [exact Hc|].
      rewrite app_assoc, Hs, Es, Hp2 at 1. now rewrite <- !app_assoc.
    + rewrite <- Es in H2. pose proof H2 as [He2 _].
      destruct (bufio.err b2) as [e|] eqn:Ee; [exact H2 | congruence].
  - pose proof H1 as [He1 _]. rewrite (turn_Bad b1 p1 He1).
    destruct (bufio.err b1) as [e|] eqn:Ee; [exact H1 | congruence].
Qed.

Lemma Write_Bad b p :
  bufio.err b <> None -> exists e, bufio.Write b p = (Some e, b).
Proof.
  intros He. unfold bufio.Write. rewrite !(turn_Bad b p He).
  destruct (bufio.err b); [eauto | congruence].
Qed.

(** *** Without scheduled faults nothing fails *)

Lemma Flush_noFaults b :
  bufio.err b = None -> noFaults (bufio.wr b) ->
  exists b', bufio.Flush b = (None, b')
             /\ bufio.err b' = None /\ noFaults (bufio.wr b').
Proof.
  intros He Hf. unfold bufio.Flush. rewrite He.
  destruct (bufio.Buffered b =? 0); [eauto|].
  destruct (os_Write_noFaults _ (bufio.buf b) Hf) as (file' & -> & Hf').
  rewrite Nat.ltb_irrefl. eauto.
Qed.

Lemma turn_noFaults b p :
  bufio.err b = None -> noFaults (bufio.wr b) ->
  bufio.err (fst (bufio.turn (b, p))) = None
  /\ noFaults (bufio.wr (fst (bufio.turn (b, p)))).
Proof.
  intros He Hf. unfold bufio.turn.
  destruct (bufio.guard (b, p)); [|auto].
  unfold bufio.body. destruct (bufio.Buffered b =? 0).
  - destruct (os_Write_noFaults _ p Hf) as (file' & -> & Hf'). auto.
  - match goal with |- context [bufio.Flush ?b1] =>
      destruct (Flush_noFaults b1 He Hf) as (b' & -> & He' & Hf') end.
    auto.
Qed.

Lemma Write_noFaults b p :
  bufio.err b = None -> noFaults (bufio.wr b) ->
  exists b', bufio.Write b p = (None, b')
             /\ bufio.err b' = None /\ noFaults (bufio.wr b').
Proof.
  intros He Hf. unfold bufio.Write.
  destruct (turn_noFaults b p He Hf) as [He1 Hf1].
  destruct (bufio.turn (b, p)) as [b1 p1]. cbn [fst] in *.
  destruct (turn_noFaults b1 p1 He1 Hf1) as [He2 Hf2].
  destruct (bufio.turn (b1, p1)) as [b2 p2]. cbn [fst] in *.
  rewrite He2. eauto.
Qed.

(** *** appendRecord *)

Lemma clean_Good w : clean w -> Good (os.content (f w)) [] (bufw w).
Proof.
  intros [He Hb]. split; [exact He|]. exists []. rewrite Hb, app_nil_r. auto.
Qed.

(** From a clean writer [appendRecord] either puts the whole record in
    the file and leaves the writer clean, or fails and leaves a proper
    prefix of the record there. *)
Lemma appendRecord_clean w op key val :
  clean w ->
  match WAL_appendRecord w op key val with
  | (None, w') =>
      clean w' /\ os.content (f w') = os.content (f w) ++ encode op key val
  | (Some _, w') => Bad (os.content (f w)) (encode op key val) (bufw w')
  end.
Proof.
  intros HC. apply clean_Good in HC. set (c0 := os.content (f w)) in *.
  unfold WAL_appendRecord, encode.
  set (h := mkHeader op key val). set (sum := checksum h key val).
  apply (Write_Good _ _ _ h) in HC. cbn [app] in HC.
  destruct (bufio.Write (bufw w) h) as [[e|] b1].
  { cbn [bufw]. apply Bad_extend, HC. }
  apply (Write_Good _ _ _ key) in HC.
  destruct (bufio.Write b1 key) as [[e|] b2].
  { cbn [bufw]. rewrite app_assoc. apply Bad_extend, HC. }
  assert (match (if 0 <? len val then bufio.Write b2 val else (None, b2)) with
          | (None, b') => Good c0 ((h ++ key) ++ val) b'
          | (Some _, b') => Bad c0 ((h ++ key) ++ val) b'
          end) as HV.
  { destruct (Z.ltb_spec 0 (len val)) as [H|H].
    - apply Write_Good, HC.
    - apply len_le_0 in H as ->. now rewrite app_nil_r. }
  clear HC.
  destruct (if 0 <? len val then bufio.Write b2 val else (None, b2))
    as [[e|] b3].
  { cbn [bufw]. rewrite app_assoc, app_assoc. apply Bad_extend, HV. }
  apply (Write_Good _ _ _ (binary.PutUint32 sum)) in HV.
  rewrite <- !app_assoc in HV.
  destruct (bufio.Write b3 (binary.PutUint32 sum)) as [[e|] b4].
  { exact HV. }
  apply Flush_Good in HV.
  destruct (bufio.Flush b4) as [[e|] b5].
  { exact HV. }
  destruct HV as [(He & w' & Hc & Hs) Hb]. cbn [bufw f].
  rewrite Hb, app_nil_r in Hs. subst w'.
  repeat split; assumption.
Qed.

(** Once the writer holds an error, [appendRecord] fails and changes
    nothing. *)
Lemma appendRecord_sticky w op key val :
  bufio.err (bufw w) <> None ->
  exists e, WAL_appendRecord w op key val = (Some e, w).
Proof.
  intros He. unfold WAL_appendRecord.
  destruct (Write_Bad (bufw w) (mkHeader op key val) He) as [e ->].
  exists e. destruct w. reflexivity.
Qed.

Lemma appendRecord_noFaults w op key val :
  clean w -> noFaults (f w) ->
  exists w', WAL_appendRecord w op key val = (None, w') /\ noFaults (f w').
Proof.
  intros [He _] Hf. unfold WAL_appendRecord, f in *.
  destruct (Write_noFaults _ (mkHeader op key val) He Hf)
    as (b1 & -> & He1 & Hf1).
  destruct (Write_noFaults _ key He1 Hf1) as (b2 & -> & He2 & Hf2).
  assert (exists b3,
            (if 0 <? len val then bufio.Write b2 val else (None, b2))
            = (None, b3) /\ bufio.err b3 = None /\ noFaults (bufio.wr b3))
    as (b3 & -> & He3 & Hf3).
  { destruct (0 <? len val); [apply Write_noFaults; assumption | eauto]. }
  destruct (Write_noFaults _
              (binary.PutUint32 (checksum (mkHeader op key val) key val))
              He3 Hf3) as (b4 & -> & He4 & Hf4).
  destruct (Flush_noFaults _ He4 Hf4) as (b5 & -> & He5 & Hf5).
  eauto.
Qed.

(** ** The store *)

Lemma with_wal_id kv : with_wal kv (wal kv) = kv.
Proof. destruct kv. reflexivity. Qed.

Lemma Flush_clean b :
  bufio.err b = None -> bufio.buf b = [] -> bufio.Flush b = (None, b).
Proof. intros He Hb. unfold bufio.Flush, bufio.Buffered. now rewrite He, Hb. Qed.

Lemma Sync_clean w :
  clean w ->
  exists e w', WAL_Sync w = (e, w') /\ clean w'
               /\ os.content (f w') = os.content (f w).
Proof.
  intros [He Hb]. unfold WAL_Sync. rewrite (Flush_clean _ He Hb).
  unfold os.Sync.
  destruct (os.faults (bufio.wr (bufw w))) as [|[k|] fs];
    do 2 eexists; (split; [reflexivity|]); (split; [split; assumption|]);
    reflexivity.
Qed.

Lemma Sync_noFaults w :
  clean w -> noFaults (f w) ->
  exists w', WAL_Sync w = (None, w') /\ noFaults (f w').
Proof.
  intros [He Hb] Hf. unfold WAL_Sync. rewrite (Flush_clean _ He Hb).
  unfold os.Sync, noFaults, f in *. rewrite Hf. eexists. split; reflexivity.
Qed.

Lemma Close_clean w : clean w -> WAL_Close w = (None, w).
Proof.
  intros [He Hb]. unfold WAL_Close. rewrite (Flush_clean _ He Hb).
  destruct w. reflexivity.
Qed.

Lemma KV_Close_clean kv : clean (wal kv) -> KV_Close kv = (None, kv).
Proof.
  intros HC. unfold KV_Close. rewrite (Close_clean _ HC).
  now rewrite with_wal_id.
Qed.

(** A call that returned nil logged its record whole and then changed the
    table. *)
Lemma doCall_ok kv c kv' :
  clean (wal kv) -> doCall kv c = (None, kv') ->
  clean (wal kv')
  /\ os.content (f (wal kv')) = os.content (f (wal kv)) ++ encodeRec (recOf c)
  /\ mem kv' = applyCall (mem kv) c
  /\ fsyncEvery kv' = fsyncEvery kv.
Proof.
  intros HC.
  assert (forall op key val upd,
    match WAL_appendRecord (wal kv) op key val with
    | (Some e, w) => (Some e, with_wal kv w)
    | (None, w) =>
        match (if fsyncEvery kv =? 1 then WAL_Sync w else (None, w)) with
        | (Some e, w) => (Some e, with_wal kv w)
        | (None, w) =>
            (None, {| mem := upd (mem kv); wal := w;
                      fsyncEvery := fsyncEvery kv |})
        end
    end = (None, kv') ->
    clean (wal kv')
    /\ os.content (f (wal kv')) = os.content (f (wal kv)) ++ encode op key val
    /\ mem kv' = upd (mem kv)
    /\ fsyncEvery kv' = fsyncEvery kv) as H.
  { intros op key val upd.
    pose proof (appendRecord_clean (wal kv) op key val HC) as HA.
    destruct (WAL_appendRecord (wal kv) op key val) as [[e|] w1];
      [discriminate|].
    destruct HA as [HC1 Hc1].
    destruct (fsyncEvery kv =? 1).
    - destruct (Sync_clean w1 HC1) as (e & w2 & -> & HC2 & Hc2).
      destruct e; [discriminate|]. intros [= <-]. cbn [wal mem fsyncEvery].
      rewrite Hc2, Hc1. auto.
    - intros [= <-]. cbn [wal mem fsyncEvery]. auto. }
  destruct c as [key val | key]; cbn [doCall recOf applyCall encodeRec];
    unfold KV_Set, KV_Del, WAL_AppendSET, WAL_AppendDEL; apply H.
Qed.

(** A call that returned an error left the table alone. *)
Lemma doCall_err_mem kv c e kv' :
  doCall kv c = (Some e, kv') -> mem kv' = mem kv.
Proof.
  destruct c as [key val | key]; cbn [doCall]; unfold KV_Set, KV_Del.
  - destruct (WAL_AppendSET (wal kv) key val) as [[e1|] w1];
      [now intros [= _ <-]|].
    destruct (if fsyncEvery kv =? 1 then WAL_Sync w1 else (None, w1))
      as [[e2|] w2]; [now intros [= _ <-] | discriminate].
  - destruct (WAL_AppendDEL (wal kv) key) as [[e1|] w1];
      [now intros [= _ <-]|].
    destruct (if fsyncEvery kv =? 1 then WAL_Sync w1 else (None, w1))
      as [[e2|] w2]; [now intros [= _ <-] | discriminate].
Qed.

Lemma runCalls_ok cs : forall kv kv',
  clean (wal kv) -> runCalls kv cs = Some kv' ->
  clean (wal kv')
  /\ os.content (f (wal kv'))
     = os.content (f (wal kv)) ++ encodeLog (map recOf cs)
  /\ mem kv' = fold_left applyCall cs (mem kv).
Proof.
  induction cs as [|c cs IH]; intros kv kv' HC.
  - intros [= <-]. rewrite app_nil_r. auto.
  - cbn [runCalls]. destruct (doCall kv c) as [[e|] kv1] eqn:E; [discriminate|].
    apply doCall_ok in E as (HC1 & Hc1 & Hm1 & _); [|exact HC].
    intros H. apply IH in H as (HC' & Hc' & Hm'); [|exact HC1].
    split; [exact HC'|]. cbn [map encodeLog flat_map fold_left].
    rewrite Hc', Hc1, Hm', Hm1, <- app_assoc. auto.
Qed.

Lemma applyRecord_recOf c m :
  applyRecord (r_op (recOf c)) (r_key (recOf c)) (r_val (recOf c)) m
  = applyCall m c.
Proof. destruct c; reflexivity. Qed.

Lemma applyAll_recOf cs : forall m,
  applyAll (map recOf cs) m = fold_left applyCall cs m.
Proof.
  induction cs as [|c cs IH]; intros m; [reflexivity|].
  cbn [map applyAll fold_left]. rewrite applyRecord_recOf. apply IH.
Qed.

Lemma OpenKV_fresh faults rfault fs kv0 :
  OpenKV (freshFile faults) rfault fs = Some (inr kv0) ->
  kv0 = {| mem := ∅; wal := OpenWAL (freshFile faults); fsyncEvery := fs |}.
Proof.
  unfold OpenKV, WAL_Replay. cbn [freshFile f OpenWAL bufw bufio.NewWriterSize
    bufio.wr os.content length replayLoop].
  destruct (readRecord _) as [[op key val| | |e] br] eqn:E.
  - apply readRecord_consumes in E. cbn in E. lia.
  - now intros [= <-].
  - now intros [= <-].
  - discriminate.
Qed.

(** *** The loop of [Write] is over after two turns *)

Lemma guard_err b p : bufio.err b <> None -> bufio.guard (b, p) = false.
Proof.
  intros He. unfold bufio.guard. cbn [fst snd].
  now rewrite (bool_decide_eq_false_2 _ He), andb_false_r.
Qed.

Lemma body_direct b p :
  bufio.Buffered b = 0 -> bufio.guard (bufio.body (b, p)) = false.
Proof.
  intros H0. unfold bufio.body. rewrite H0. cbn [Z.eqb].
  destruct (os.Write (bufio.wr b) p) as [[n [e|]] file'] eqn:EW.
  - apply guard_err. discriminate.
  - apply os_Write_ok in EW as [-> _]. rewrite skipn_all.
    unfold bufio.guard, bufio.Available, bufio.Buffered in *.
    cbn [fst snd bufio.buf]. rewrite H0.
    now destruct (Z.ltb_spec (bufio.size - 0) (len (@nil byte))).
Qed.

Lemma body_flush b p :
  bufio.Buffered b <> 0 -> bufio.err b = None ->
  bufio.err (fst (bufio.body (b, p))) <> None
  \/ bufio.Buffered (fst (bufio.body (b, p))) = 0.
Proof.
  intros H0 He. unfold bufio.body.
  destruct (Z.eqb_spec (bufio.Buffered b) 0) as [|_]; [contradiction|].
  cbn [fst snd]. unfold bufio.Flush. cbn [bufio.err bufio.wr bufio.buf].
  rewrite He.
  destruct (bufio.Buffered _ =? 0) eqn:EB.
  { right. now apply Z.eqb_eq in EB. }
  destruct (os.Write _ _) as [[n [e|]] file'] eqn:EW; cbn [snd].
  - left. discriminate.
  - apply os_Write_ok in EW as [-> _]. rewrite Nat.ltb_irrefl. now right.
Qed.

(** After two turns the condition of the loop of [Write] is false: the
    two turns of [bufio.Write] are the whole loop. *)
Lemma Write_loop_exits b p :
  bufio.guard (bufio.turn (bufio.turn (b, p))) = false.
Proof.
  unfold bufio.turn at 2. destruct (bufio.guard (b, p)) eqn:G1.
  2: { unfold bufio.turn. now rewrite G1. }
  destruct (Z.eq_dec (bufio.Buffered b) 0) as [H0|H0].
  { pose proof (body_direct b p H0) as G2. unfold bufio.turn.
    now rewrite G2. }
  assert (bufio.err b = None) as He.
  { unfold bufio.guard in G1. apply andb_prop in G1 as [_ G1].
    now apply bool_decide_eq_true in G1. }
  destruct (bufio.body (b, p)) as [b1 p1] eqn:EB.
  pose proof (body_flush b p H0 He) as H. rewrite EB in H. cbn [fst] in H.
  unfold bufio.turn. destruct (bufio.guard (b1, p1)) eqn:G2; [|exact G2].
  destruct H as [H|H].
  - now rewrite (guard_err b1 p1 H) in G2.
  - apply body_direct, H.
Qed.

(** * The claims *)

Lemma readRecord_nil : readRecord (reader []) = (EndOfStream, reader []).
Proof. reflexivity. Qed.

Lemma recovered_complete rs :
  Forall validRec rs -> recovered (encodeLog rs) = Some (None, applyAll rs ∅).
Proof.
  intros HV. rewrite <- (app_nil_r (encodeLog rs)).
  apply (recovered_stop rs [] (reader [])); [exact HV|].
  left. apply readRecord_nil.
Qed.

Lemma applyAll_app rs rs' m :
  applyAll (rs ++ rs') m = applyAll rs' (applyAll rs m).
Proof. apply fold_left_app. Qed.

(** ** C2: round trip *)

(** C2.  For every op byte (SET and DEL among them), every key of 1 to
    2^20 bytes and every value of 0 to 64*2^20 bytes (the empty value of a
    DEL among them), decoding the bytes of the encoded record yields the
    very op, key and value; the decoder signals neither end of stream nor
    corruption, and leaves the bytes [rest] behind the record unread. *)
Theorem C2_roundtrip op key val rest :
  1 <= len key <= 2 ^ 20 ->
  0 <= len val <= 64 * 2 ^ 20 ->
  readRecord (reader (encode op key val ++ rest))
  = (Decoded op key val, reader rest).
Proof.
  intros Hk Hv. apply readRecord_encode. split; [exact Hk | apply Hv].
Qed.

Lemma C2_roundtrip_witness :
  1 <= len (bytes [107]) <= 2 ^ 20 /\
  0 <= len (bytes [118; 49]) <= 64 * 2 ^ 20 /\
  readRecord (reader (encode opSet (bytes [107]) (bytes [118; 49]) ++ []))
  = (Decoded opSet (bytes [107]) (bytes [118; 49]), reader []).
Proof.
  assert (1 <= len (bytes [107]) <= 2 ^ 20) as Hk by (vm_compute; intuition discriminate).
  assert (0 <= len (bytes [118; 49]) <= 64 * 2 ^ 20) as Hv
    by (vm_compute; intuition discriminate).
  split; [exact Hk|]. split; [exact Hv|].
  exact (C2_roundtrip opSet (bytes [107]) (bytes [118; 49]) [] Hk Hv).
Defined.

(** ** C4: torn tail *)

(** C4.  A well-formed log (complete records within the size bounds) cut
    at any offset inside its last record: replay applies exactly the
    records before the last one, ignores the remainder and returns no
    error, whatever the callback; [OpenKV] returns the store holding the
    table of those records. *)
Theorem C4_torn_tail rs r o faults fs :
  Forall validRec rs -> validRec r ->
  (length (encodeLog rs) <= o < length (encodeLog (rs ++ [r])))%nat ->
  let file := {| os.content := firstn o (encodeLog (rs ++ [r]));
                 os.faults := faults |} in
  (forall (S : Type) (apply : byte -> list byte -> list byte -> S -> S) st,
      exists br,
        WAL_Replay (OpenWAL file) None apply st
        = Some (None,
                fold_left (fun s r => apply (r_op r) (r_key r) (r_val r) s)
                          rs st,
                br))
  /\ OpenKV file None fs
     = Some (inr {| mem := applyAll rs ∅; wal := OpenWAL file;
                    fsyncEvery := fs |}).
Proof.
  intros HV Hr Ho file.
  rewrite encodeLog_app, encodeLog_one, length_app in Ho.
  assert (os.content file
          = encodeLog rs ++ firstn (o - length (encodeLog rs)) (encodeRec r))
    as Ec.
  { unfold file. cbn [os.content].
    rewrite encodeLog_app, encodeLog_one, firstn_app.
    now rewrite firstn_all2 by lia. }
  destruct (readRecord_torn (r_op r) (r_key r) (r_val r)
              (o - length (encodeLog rs)) Hr) as [br Hbr].
  { unfold encodeRec in Ho. lia. }
  split.
  - intros S apply st. exists br. rewrite WAL_Replay_replay.
    change (os.content (f (OpenWAL file))) with (os.content file).
    rewrite Ec, replay_log by exact HV.
    apply replay_stop, Hbr.
  - apply (OpenKV_recovered file fs None). rewrite Ec.
    apply (recovered_stop rs _ br HV Hbr).
Qed.

Lemma C4_torn_tail_witness :
  OpenKV {| os.content := firstn 20 (encodeLog ([recA] ++ [recB]));
            os.faults := [] |} None 0
  = Some (inr {| mem := applyAll [recA] ∅;
                 wal := OpenWAL {| os.content :=
                                     firstn 20 (encodeLog ([recA] ++ [recB]));
                                   os.faults := [] |};
                 fsyncEvery := 0 |}).
Proof.
  assert (validRec recA) as HA by (vm_compute; intuition discriminate).
  assert (validRec recB) as HB by (vm_compute; intuition discriminate).
  assert (length (encodeLog [recA]) <= 20
          < length (encodeLog ([recA] ++ [recB])))%nat as Ho
    by (vm_compute; lia).
  exact (proj2 (C4_torn_tail [recA] recB 20 [] 0
                  (Forall_cons_2 _ _ _ HA (Forall_nil_2 _)) HB Ho)).
Defined.

(** ** C7: malformed lengths *)

Lemma bad_length_corrupt br header br1 :
  io.ReadFull br 9 = ((header, None), br1) ->
  binary.Uint32 (slice header 1 5) = 0
  \/ binary.Uint32 (slice header 1 5) > 2 ^ 20
  \/ binary.Uint32 (slice header 5 9) > 64 * 2 ^ 20 ->
  readRecord br = (Corrupt, br1)
  /\ forall (S : Type) (apply : byte -> list byte -> list byte -> S -> S)
            (st : S) fuel,
       replayLoop (Datatypes.S fuel) br apply st = Some (None, st, br1).
Proof.
  intros ER Hlen.
  assert (readRecord br = (Corrupt, br1)) as E.
  { unfold readRecord. rewrite ER.
    assert ((binary.Uint32 (slice header 1 5) =? 0)
            || (maxKey <? binary.Uint32 (slice header 1 5))
            || (maxVal <? binary.Uint32 (slice header 5 9)) = true) as ->.
    { unfold maxKey, maxVal. rewrite !orb_true_iff, Z.eqb_eq, !Z.ltb_lt. lia. }
    reflexivity. }
  split; [exact E|]. intros S apply st fuel. cbn [replayLoop]. now rewrite E.
Qed.

(** C7.  Once the nine header bytes are read, a key length of 0 or above
    2^20, or a value length above 64*2^20, makes the decoder signal
    corruption with the reader still right behind the header; the loop of
    replay returns there, with no error and the state as it was. *)
Theorem C7_bad_length br header br1 :
  io.ReadFull br 9 = ((header, None), br1) ->
  binary.Uint32 (slice header 1 5) = 0
  \/ binary.Uint32 (slice header 1 5) > 2 ^ 20
  \/ binary.Uint32 (slice header 5 9) > 64 * 2 ^ 20 ->
  readRecord br = (Corrupt, br1)
  /\ forall (S : Type) (apply : byte -> list byte -> list byte -> S -> S)
            (st : S) fuel,
       replayLoop (Datatypes.S fuel) br apply st = Some (None, st, br1).
Proof. apply bad_length_corrupt. Qed.

Lemma C7_bad_length_witness :
  readRecord (reader (encode opSet [] val1 ++ encodeRec recA))
  = (Corrupt, reader (skipn 9 (encode opSet [] val1 ++ encodeRec recA))).
Proof.
  refine (proj1 (C7_bad_length
                   (reader (encode opSet [] val1 ++ encodeRec recA))
                   (mkHeader opSet [] val1)
                   (reader (skipn 9 (encode opSet [] val1 ++ encodeRec recA)))
                   _ _)).
  - vm_compute. reflexivity.
  - left. vm_compute. reflexivity.
Defined.

(** ** C10: unknown op codes *)

(** C10.  A complete, checksum-valid record (within the size bounds)
    whose op byte is neither 1 nor 2: the decoder hands it to the
    callback, the callback of [OpenKV] leaves the table as it is, and
    replay goes on: the records before and after it are all applied and no
    error is returned. *)
Theorem C10_unknown_op op key val rs rs' faults fs :
  op <> opSet -> op <> opDel ->
  inBounds key val -> Forall validRec rs -> Forall validRec rs' ->
  let file := {| os.content := encodeLog rs ++ encode op key val ++ encodeLog rs';
                 os.faults := faults |} in
  (forall rest, readRecord (reader (encode op key val ++ rest))
                = (Decoded op key val, reader rest))
  /\ (forall m, applyRecord op key val m = m)
  /\ OpenKV file None fs
     = Some (inr {| mem := applyAll (rs ++ rs') ∅; wal := OpenWAL file;
                    fsyncEvery := fs |}).
Proof.
  intros H1 H2 HB HV HV' file.
  assert (forall m, applyRecord op key val m = m) as Hid.
  { intros m. unfold applyRecord.
    now rewrite (bool_decide_eq_false_2 _ H1), (bool_decide_eq_false_2 _ H2). }
  split; [intros rest; apply readRecord_encode, HB|]. split; [exact Hid|].
  apply (OpenKV_recovered file fs None). unfold file. cbn [os.content].
  change (encode op key val) with (encodeRec (Rec op key val)).
  rewrite <- encodeLog_one, app_assoc, <- !encodeLog_app.
  rewrite recovered_complete.
  - rewrite !applyAll_app. cbn [applyAll fold_left r_op r_key r_val].
    now rewrite Hid.
  - apply Forall_app. split; [|exact HV'].
    apply Forall_app. split; [exact HV|].
    constructor; [exact HB | constructor].
Qed.

Lemma C10_unknown_op_witness :
  OpenKV {| os.content := encodeLog [recA] ++ encode Byte.x07 keyK val1
                          ++ encodeLog [recB];
            os.faults := [] |} None 0
  = Some (inr {| mem := applyAll ([recA] ++ [recB]) ∅;
                 wal := OpenWAL {| os.content :=
                                     encodeLog [recA]
                                     ++ encode Byte.x07 keyK val1
                                     ++ encodeLog [recB];
                                   os.faults := [] |};
                 fsyncEvery := 0 |}).
Proof.
  assert (validRec recA) as HA by (vm_compute; intuition discriminate).
  assert (validRec recB) as HB by (vm_compute; intuition discriminate).
  assert (inBounds keyK val1) as HK by (vm_compute; intuition discriminate).
  assert (Byte.x07 <> opSet) as H1 by discriminate.
  assert (Byte.x07 <> opDel) as H2 by discriminate.
  exact (proj2 (proj2 (C10_unknown_op Byte.x07 keyK val1 [recA] [recB] [] 0
                         H1 H2 HK
                         (Forall_cons_2 _ _ _ HA (Forall_nil_2 _))
                         (Forall_cons_2 _ _ _ HB (Forall_nil_2 _))))).
Defined.

(** ** C8: the record layout *)

Lemma PutUint32_uint32 n : binary.PutUint32 (uint32 n) = le32 n.
Proof.
  unfold le32, uint32. rewrite PutUint32_le_split.
  symmetry. apply (le_split_mod n 4).
Qed.

(** What [appendRecord] writes is the record of the format table. *)
Lemma encode_recordBytes op key val : encode op key val = recordBytes op key val.
Proof.
  unfold encode, recordBytes.
  assert (mkHeader op key val = [op] ++ le32 (len key) ++ le32 (len val)) as Eh.
  { unfold mkHeader. now rewrite !PutUint32_uint32. }
  rewrite checksum_update.
  rewrite <- (uint32_small (crc32.update 0 _))
    by (apply update_range; unfold word32; lia).
  rewrite PutUint32_uint32.
  fold (crc32.ChecksumIEEE (mkHeader op key val ++ key ++ val)).
  rewrite ChecksumIEEE_bitwise, Eh, <- !app_assoc. reflexivity.
Qed.

(** C8.  From a writer that holds no error and nothing buffered, a
    successful append of (op, key, value) adds to the file exactly: the op
    byte, the key length and the value length as four little-endian bytes
    each, the key, the value, and the four little-endian bytes of the
    CRC-32 of all that went before, in that order.  [AppendSET] writes op
    byte 1; [AppendDEL] writes op byte 2 and a value length of 0.  When no
    fault is scheduled the append does succeed. *)
Theorem C8_record_layout w op key val :
  clean w ->
  (forall w', WAL_appendRecord w op key val = (None, w') ->
     os.content (f w') = os.content (f w) ++ recordBytes op key val)
  /\ (forall w', WAL_AppendSET w key val = (None, w') ->
     os.content (f w')
     = os.content (f w) ++ recordBytes (byte.of_Z 1) key val)
  /\ (forall w', WAL_AppendDEL w key = (None, w') ->
     os.content (f w')
     = os.content (f w)
       ++ [byte.of_Z 2] ++ le32 (len key) ++ le32 0 ++ key
       ++ le32 (crc32.bitwise ([byte.of_Z 2] ++ le32 (len key) ++ le32 0 ++ key)))
  /\ (noFaults (f w) ->
      exists w', WAL_appendRecord w op key val = (None, w')).
Proof.
  intros HC.
  assert (forall op val w', WAL_appendRecord w op key val = (None, w') ->
            os.content (f w') = os.content (f w) ++ recordBytes op key val) as H.
  { intros op0 val0 w' E.
    pose proof (appendRecord_clean w op0 key val0 HC) as HA.
    rewrite E in HA. destruct HA as [_ ->]. now rewrite encode_recordBytes. }
  split; [apply H|]. split; [apply (H opSet)|]. split.
  - intros w' E. apply (H opDel []) in E. rewrite E.
    unfold recordBytes. now rewrite !app_nil_r, <- !app_assoc.
  - intros Hf.
    destruct (appendRecord_noFaults w op key val HC Hf) as (w' & E & _).
    eauto.
Qed.

Lemma C8_record_layout_witness :
  os.content (f (snd (WAL_appendRecord (OpenWAL (freshFile [])) opSet keyA val1)))
  = os.content (f (OpenWAL (freshFile []))) ++ recordBytes opSet keyA val1.
Proof.
  assert (clean (OpenWAL (freshFile []))) as HC by (split; reflexivity).
  refine (proj1 (C8_record_layout (OpenWAL (freshFile [])) opSet keyA val1 HC)
            _ _).
  vm_compute. reflexivity.
Defined.

(** The record "SET a=1" byte by byte. *)
Example recordBytes_SET_a_1 :
  recordBytes opSet keyA val1
  = bytes [1; 1; 0; 0; 0; 1; 0; 0; 0; 97; 49]
    ++ le32 (crc32.bitwise (bytes [1; 1; 0; 0; 0; 1; 0; 0; 0; 97; 49])).
Proof. vm_compute. reflexivity. Qed.

(** ** C5: write-ahead ordering *)

(** C5.  When the append step of [Set] fails, [Set] returns that very
    error and the table is what it was: every key reads as before. *)
Theorem C5_append_fails kv key val e w' :
  WAL_AppendSET (wal kv) key val = (Some e, w') ->
  exists kv', KV_Set kv key val = (Some e, kv')
              /\ mem kv' = mem kv
              /\ forall k, KV_Get kv' k = KV_Get kv k.
Proof.
  intros E. unfold KV_Set. rewrite E. eexists. split; [reflexivity|].
  split; reflexivity.
Qed.

Lemma C5_append_fails_witness :
  exists kv', KV_Set (freshKV [Some 3%nat] 0) keyA val1 = (Some EIO, kv')
              /\ mem kv' = mem (freshKV [Some 3%nat] 0)
              /\ forall k, KV_Get kv' k = KV_Get (freshKV [Some 3%nat] 0) k.
Proof.
  refine (C5_append_fails (freshKV [Some 3%nat] 0) keyA val1 EIO
            (snd (WAL_AppendSET (wal (freshKV [Some 3%nat] 0)) keyA val1)) _).
  vm_compute. reflexivity.
Defined.

(** The failed append of the witness left three bytes of the record in
    the file. *)
Example C5_torn_bytes :
  os.content (f (wal (snd (KV_Set (freshKV [Some 3%nat] 0) keyA val1))))
  = firstn 3 (encode opSet keyA val1).
Proof. vm_compute. reflexivity. Qed.

(** ** C9: the empty key *)

Lemma header_empty_key op val :
  binary.Uint32 (slice (mkHeader op [] val) 1 5) = 0.
Proof. now rewrite header_keyLen. Qed.

Lemma readRecord_empty_key op val rest :
  exists br, readRecord (reader (encode op [] val ++ rest)) = (Corrupt, br).
Proof.
  eexists. unfold encode. rewrite <- app_assoc.
  refine (proj1 (bad_length_corrupt _ _ _ _ _)).
  - apply (ReadFull_exact (mkHeader op [] val)). reflexivity.
  - left. apply header_empty_key.
Qed.

(** A call on a clean store with no fault scheduled returns nil. *)
Lemma doCall_noFaults kv c :
  clean (wal kv) -> noFaults (f (wal kv)) ->
  exists kv', doCall kv c = (None, kv').
Proof.
  intros HC Hf.
  assert (forall op key val upd, exists kv',
    match WAL_appendRecord (wal kv) op key val with
    | (Some e, w) => (Some e, with_wal kv w)
    | (None, w) =>
        match (if fsyncEvery kv =? 1 then WAL_Sync w else (None, w)) with
        | (Some e, w) => (Some e, with_wal kv w)
        | (None, w) =>
            (None, {| mem := upd (mem kv); wal := w;
                      fsyncEvery := fsyncEvery kv |})
        end
    end = (None, kv')) as H.
  { intros op key val upd.
    pose proof (appendRecord_clean (wal kv) op key val HC) as HA.
    destruct (appendRecord_noFaults (wal kv) op key val HC Hf)
      as (w1 & E & Hf1).
    rewrite E in *. destruct HA as [HC1 _].
    destruct (fsyncEvery kv =? 1); [|eauto].
    destruct (Sync_noFaults w1 HC1 Hf1) as (w2 & -> & _). eauto. }
  destruct c as [key val | key]; cbn [doCall];
    unfold KV_Set, KV_Del, WAL_AppendSET, WAL_AppendDEL; apply H.
Qed.

(** ** C9: the empty key *)

(** C9.  [Set] with an empty key is taken by the write path: on a clean
    store with no fault scheduled it returns nil, logs a record whose key
    length field is 0 and installs the value in the table.  Replay takes
    that record for corruption and stops there: whatever follows it in the
    log, a reopen recovers only the records before it. *)
Theorem C9_empty_key kv val rs rest faults fs :
  clean (wal kv) -> noFaults (f (wal kv)) -> Forall validRec rs ->
  (exists kv', KV_Set kv [] val = (None, kv')
      /\ mem kv' = <[ [] := val ]> (mem kv)
      /\ os.content (f (wal kv'))
         = os.content (f (wal kv)) ++ encode opSet [] val)
  /\ binary.Uint32 (slice (encode opSet [] val) 1 5) = 0
  /\ (exists br,
        readRecord (reader (encode opSet [] val ++ rest)) = (Corrupt, br))
  /\ let file := {| os.content := encodeLog rs ++ encode opSet [] val ++ rest;
                    os.faults := faults |} in
     OpenKV file None fs
     = Some (inr {| mem := applyAll rs ∅; wal := OpenWAL file;
                    fsyncEvery := fs |}).
Proof.
  intros HC Hf HV. split; [|split; [|split]].
  - destruct (doCall_noFaults kv (CallSet [] val) HC Hf) as [kv' E].
    exists kv'. split; [exact E|].
    apply doCall_ok in E as (_ & Hc & Hm & _); [|exact HC]. auto.
  - apply (header_empty_key opSet val).
  - apply readRecord_empty_key.
  - intros file. apply (OpenKV_recovered file fs None).
    destruct (readRecord_empty_key opSet val rest) as [br Hbr].
    apply (recovered_stop rs _ br HV). right. exact Hbr.
Qed.

Lemma C9_empty_key_witness :
  OpenKV {| os.content := encodeLog [recA] ++ encode opSet [] val1
                          ++ encodeLog [recB];
            os.faults := [] |} None 0
  = Some (inr {| mem := applyAll [recA] ∅;
                 wal := OpenWAL {| os.content :=
                                     encodeLog [recA] ++ encode opSet [] val1
                                     ++ encodeLog [recB];
                                   os.faults := [] |};
                 fsyncEvery := 0 |}).
Proof.
  assert (clean (wal (freshKV [] 0))) as HC by (split; reflexivity).
  assert (noFaults (f (wal (freshKV [] 0)))) as Hf by reflexivity.
  assert (validRec recA) as HA by (vm_compute; intuition discriminate).
  exact (proj2 (proj2 (proj2
           (C9_empty_key (freshKV [] 0) val1 [recA] (encodeLog [recB]) [] 0
              HC Hf (Forall_cons_2 _ _ _ HA (Forall_nil_2 _)))))).
Defined.

(** ** C1: crash consistency *)

(** The first example scenario: after Set a=1, Set b=22, Del a, a close
    and a reopen, a is not found and b is 22. *)
Example scenario1_result : scenario1 = Some (None, Some (bytes [50; 50])).
Proof. vm_compute. reflexivity. Qed.


(** C1, as stated, fails on a [Set] with an empty key: both calls return
    nil, yet after close and reopen the table is empty, while the two
    operations applied to an empty map leave two entries. *)
Lemma C1_counterexample :
  tableAfterReopen [] 0 [CallSet [] val1; CallSet keyA val1] = Some ∅
  /\ applyCalls [CallSet [] val1; CallSet keyA val1] !! keyA = Some val1.
Proof. split; vm_compute; reflexivity. Qed.

(** C1, amended.  For every sequence of successful [Set]/[Del] calls on a
    store freshly opened on an empty log file, with keys of 1 to 2^20
    bytes and values of at most 64*2^20 bytes, the table of the running
    store, and the table of the store obtained by closing it and opening
    the file again, are the map obtained by applying the operations in
    order to the empty map; whatever the fsync policies and the faults
    scheduled. *)
Theorem C1_crash_consistency faults rfault fs fs' cs kv0 kv :
  OpenKV (freshFile faults) rfault fs = Some (inr kv0) ->
  runCalls kv0 cs = Some kv ->
  Forall callInBounds cs ->
  mem kv = applyCalls cs
  /\ exists kv', reopen kv fs' = Some (inr kv') /\ mem kv' = applyCalls cs.
Proof.
  intros E0 ER HB. apply OpenKV_fresh in E0. subst kv0.
  apply runCalls_ok in ER as (HC & Hc & Hm); [|split; reflexivity].
  cbn [mem wal f OpenWAL bufw bufio.NewWriterSize bufio.wr freshFile
       os.content app] in Hc, Hm.
  split; [exact Hm|].
  unfold reopen. rewrite (KV_Close_clean kv HC).
  eexists. split.
  - apply (OpenKV_recovered _ fs' None). unfold f in Hc. unfold f.
    rewrite Hc. apply recovered_complete.
    apply Forall_map. exact HB.
  - cbn [mem]. apply applyAll_recOf.
Qed.

Lemma C1_crash_consistency_witness :
  exists kv', reopen (snd (KV_Del
                        (snd (KV_Set (snd (KV_Set (freshKV [] 1) keyA val1))
                                keyB val22)) keyA)) 0
              = Some (inr kv')
              /\ mem kv' = applyCalls [CallSet keyA val1; CallSet keyB val22;
                                       CallDel keyA].
Proof.
  refine (proj2 (C1_crash_consistency [] None 1 0
                   [CallSet keyA val1; CallSet keyB val22; CallDel keyA]
                   (freshKV [] 1) _ _ _ _)).
  - vm_compute. reflexivity.
  - vm_compute. reflexivity.
  - repeat constructor; vm_compute; discriminate.
Defined.

(** ** Torn appends *)

(** A failed append left a torn tail, which a reopen discards. *)
Lemma torn_append_recovered rs r b fs :
  Forall validRec rs -> validRec r ->
  Bad (encodeLog rs) (encodeRec r) b ->
  OpenKV (bufio.wr b) None fs
  = Some (inr {| mem := applyAll rs ∅; wal := OpenWAL (bufio.wr b);
                 fsyncEvery := fs |}).
Proof.
  intros HV Hr (_ & w & t & Hc & Hs & Ht).
  apply (OpenKV_recovered _ fs None). rewrite Hc.
  assert (w = firstn (length w) (encodeRec r)) as Ew
    by (rewrite <- Hs, firstn_app, Nat.sub_diag, firstn_all, firstn_0;
        now rewrite app_nil_r).
  assert (length w < length (encodeRec r))%nat as Hl.
  { rewrite <- Hs, length_app. destruct t; [congruence|]. cbn [length]. lia. }
  destruct (readRecord_torn (r_op r) (r_key r) (r_val r) (length w) Hr Hl)
    as [br Hbr].
  rewrite Ew. apply (recovered_stop rs _ br HV Hbr).
Qed.

(** ** C6: checksum sensitivity *)




(** * Further properties of the store *)

(** ** Reading back what was set or deleted *)

(** [Set] that returned nil: [Get] of the key finds the new value, and
    every other key reads as before. *)
Theorem Set_then_Get kv key val kv' :
  KV_Set kv key val = (None, kv') ->
  KV_Get kv' key = Some val
  /\ forall k, k <> key -> KV_Get kv' k = KV_Get kv k.
Proof.
  unfold KV_Set, KV_Get.
  destruct (WAL_AppendSET (wal kv) key val) as [[e1|] w1]; [discriminate|].
  destruct (if fsyncEvery kv =? 1 then WAL_Sync w1 else (None, w1))
    as [[e2|] w2]; [discriminate|].
  intros [= <-]. cbn [mem]. split.
  - apply lookup_insert_eq.
  - intros k Hk. apply lookup_insert_ne. congruence.
Qed.

Lemma Set_then_Get_witness :
  KV_Get (snd (KV_Set (freshKV [] 1) keyA val1)) keyA = Some val1.
Proof.
  refine (proj1 (Set_then_Get (freshKV [] 1) keyA val1
                   (snd (KV_Set (freshKV [] 1) keyA val1)) _)).
  vm_compute. reflexivity.
Defined.

(** [Del] that returned nil: the key is not found afterwards and every
    other key reads as before.  [Del] does not look the key up first: on a
    clean writer it logs a DEL record also for a key the table does not
    hold. *)
Theorem Del_then_Get kv key kv' :
  KV_Del kv key = (None, kv') ->
  KV_Get kv' key = None
  /\ (forall k, k <> key -> KV_Get kv' k = KV_Get kv k)
  /\ (clean (wal kv) ->
      os.content (f (wal kv'))
      = os.content (f (wal kv)) ++ encode opDel key []).
Proof.
  intros E. split; [|split].
  - revert E. unfold KV_Del, KV_Get.
    destruct (WAL_AppendDEL (wal kv) key) as [[e1|] w1]; [discriminate|].
    destruct (if fsyncEvery kv =? 1 then WAL_Sync w1 else (None, w1))
      as [[e2|] w2]; [discriminate|].
    intros [= <-]. cbn [mem]. apply lookup_delete_eq.
  - revert E. unfold KV_Del, KV_Get.
    destruct (WAL_AppendDEL (wal kv) key) as [[e1|] w1]; [discriminate|].
    destruct (if fsyncEvery kv =? 1 then WAL_Sync w1 else (None, w1))
      as [[e2|] w2]; [discriminate|].
    intros [= <-] k Hk. cbn [mem]. apply lookup_delete_ne. congruence.
  - intros HC.
    apply (doCall_ok kv (CallDel key) kv' HC) in E as (_ & Hc & _). exact Hc.
Qed.

Lemma Del_then_Get_witness :
  KV_Get (snd (KV_Del (freshKV [] 0) keyA)) keyA = None.
Proof.
  refine (proj1 (Del_then_Get (freshKV [] 0) keyA
                   (snd (KV_Del (freshKV [] 0) keyA)) _)).
  vm_compute. reflexivity.
Defined.

(** ** The log only grows *)

Lemma os_Write_grows file p :
  os.content file `prefix_of` os.content (snd (os.Write file p)).
Proof.
  unfold os.Write. destruct (os.faults file) as [|[k|] fs]; cbn [snd os.content];
    apply prefix_app_r; reflexivity.
Qed.

Lemma Flush_grows b :
  os.content (bufio.wr b)
  `prefix_of` os.content (bufio.wr (snd (bufio.Flush b))).
Proof.
  unfold bufio.Flush. destruct (bufio.err b); [reflexivity|].
  destruct (bufio.Buffered b =? 0); [reflexivity|].
  pose proof (os_Write_grows (bufio.wr b) (bufio.buf b)) as H.
  destruct (os.Write (bufio.wr b) (bufio.buf b)) as [[n [e|]] file'];
    cbn [snd] in *; [exact H|].
  destruct (n <? length (bufio.buf b))%nat; exact H.
Qed.

Lemma turn_grows b p :
  os.content (bufio.wr b)
  `prefix_of` os.content (bufio.wr (fst (bufio.turn (b, p)))).
Proof.
  unfold bufio.turn. destruct (bufio.guard (b, p)); [|reflexivity].
  unfold bufio.body. destruct (bufio.Buffered b =? 0).
  - pose proof (os_Write_grows (bufio.wr b) p) as H.
    destruct (os.Write (bufio.wr b) p) as [[n e] file']. exact H.
  - cbn [fst].
    match goal with |- context [bufio.Flush ?b1] =>
      apply (Flush_grows b1) end.
Qed.

Lemma Write_grows b p :
  os.content (bufio.wr b)
  `prefix_of` os.content (bufio.wr (snd (bufio.Write b p))).
Proof.
  unfold bufio.Write.
  pose proof (turn_grows b p) as H1.
  destruct (bufio.turn (b, p)) as [b1 p1]. cbn [fst] in H1.
  pose proof (turn_grows b1 p1) as H2.
  destruct (bufio.turn (b1, p1)) as [b2 p2]. cbn [fst] in H2.
  destruct (bufio.err b2); cbn [snd bufio.wr]; etrans; eassumption.
Qed.

Lemma appendRecord_grows w op key val :
  os.content (f w)
  `prefix_of` os.content (f (snd (WAL_appendRecord w op key val))).
Proof.
  unfold WAL_appendRecord, f.
  pose proof (Write_grows (bufw w) (mkHeader op key val)) as H1.
  destruct (bufio.Write (bufw w) (mkHeader op key val)) as [[e|] b1];
    cbn [snd] in *; [exact H1|].
  pose proof (Write_grows b1 key) as H2.
  destruct (bufio.Write b1 key) as [[e|] b2];
    cbn [snd bufw] in *; [etrans; eassumption|].
  assert (os.content (bufio.wr b2) `prefix_of`
          os.content (bufio.wr (snd (if 0 <? len val then bufio.Write b2 val
                                     else (None, b2))))) as H3.
  { destruct (0 <? len val); [apply Write_grows | reflexivity]. }
  destruct (if 0 <? len val then bufio.Write b2 val else (None, b2))
    as [[e|] b3]; cbn [snd bufw] in *; [do 2 (etrans; [eassumption|]); done|].
  match goal with |- context [bufio.Write b3 ?p] =>
    pose proof (Write_grows b3 p) as H4;
    destruct (bufio.Write b3 p) as [[e|] b4] end;
    cbn [snd bufw] in *; [do 3 (etrans; [eassumption|]); done|].
  pose proof (Flush_grows b4) as H5.
  destruct (bufio.Flush b4) as [[e|] b5]; cbn [snd bufw] in *;
    do 4 (etrans; [eassumption|]); done.
Qed.

Lemma Sync_grows w :
  os.content (f w) `prefix_of` os.content (f (snd (WAL_Sync w))).
Proof.
  unfold WAL_Sync, f. pose proof (Flush_grows (bufw w)) as H1.
  destruct (bufio.Flush (bufw w)) as [[e|] b1]; cbn [snd bufw] in *;
    [exact H1|].
  unfold os.Sync. destruct (os.faults (bufio.wr b1)) as [|[k|] fs];
    cbn [snd bufw bufio.wr os.content]; exact H1.
Qed.

Lemma Close_grows w :
  os.content (f w) `prefix_of` os.content (f (snd (WAL_Close w))).
Proof.
  unfold WAL_Close, f. pose proof (Flush_grows (bufw w)) as H1.
  destruct (bufio.Flush (bufw w)) as [[e|] b1]; exact H1.
Qed.

(** Whatever state the store is in and whatever fails, [Set], [Del] and
    [Close] never rewrite or truncate the log: the bytes the file held
    before the call are a prefix of the bytes it holds after. *)
Theorem log_append_only kv c :
  os.content (f (wal kv))
  `prefix_of` os.content (f (wal (snd (doCall kv c))))
  /\ os.content (f (wal kv))
     `prefix_of` os.content (f (wal (snd (KV_Close kv)))).
Proof.
  split.
  - assert (forall op key val upd,
      os.content (f (wal kv)) `prefix_of`
      os.content (f (wal (snd
        match WAL_appendRecord (wal kv) op key val with
        | (Some e, w) => (Some e, with_wal kv w)
        | (None, w) =>
            match (if fsyncEvery kv =? 1 then WAL_Sync w else (None, w)) with
            | (Some e, w) => (Some e, with_wal kv w)
            | (None, w) =>
                (None, {| mem := upd (mem kv); wal := w;
                          fsyncEvery := fsyncEvery kv |})
            end
        end)))) as H.
    { intros op key val upd.
      pose proof (appendRecord_grows (wal kv) op key val) as H1.
      destruct (WAL_appendRecord (wal kv) op key val) as [[e|] w1];
        cbn [snd] in *; [exact H1|].
      assert (os.content (f w1) `prefix_of`
              os.content (f (snd (if fsyncEvery kv =? 1 then WAL_Sync w1
                                  else (None, w1))))) as H2.
      { destruct (fsyncEvery kv =? 1); [apply Sync_grows | reflexivity]. }
      destruct (if fsyncEvery kv =? 1 then WAL_Sync w1 else (None, w1))
        as [[e|] w2]; cbn [snd wal with_wal] in *; etrans; eassumption. }
    destruct c as [key val | key]; cbn [doCall];
      unfold KV_Set, KV_Del, WAL_AppendSET, WAL_AppendDEL; apply H.
  - unfold KV_Close. pose proof (Close_grows (wal kv)) as H.
    destruct (WAL_Close (wal kv)) as [e w]. exact H.
Qed.

(** ** After a failed append *)

Lemma doCall_unfold kv c :
  doCall kv c
  = match appendOf kv c with
    | (Some e, w) => (Some e, with_wal kv w)
    | (None, w) =>
        match (if fsyncEvery kv =? 1 then WAL_Sync w else (None, w)) with
        | (Some e, w) => (Some e, with_wal kv w)
        | (None, w) =>
            (None, {| mem := applyCall (mem kv) c; wal := w;
                      fsyncEvery := fsyncEvery kv |})
        end
    end.
Proof. destruct c; reflexivity. Qed.

Lemma Write_err b p e b' :
  bufio.Write b p = (Some e, b') -> bufio.err b' = Some e.
Proof.
  unfold bufio.Write. destruct (bufio.turn (bufio.turn (b, p))) as [b2 p2].
  destruct (bufio.err b2) as [e2|] eqn:E; [|discriminate].
  now intros [= <- <-].
Qed.

Lemma Flush_err b e b' :
  bufio.Flush b = (Some e, b') -> bufio.err b' = Some e.
Proof.
  unfold bufio.Flush. destruct (bufio.err b) as [e0|] eqn:E.
  { now intros [= <- <-]. }
  destruct (bufio.Buffered b =? 0); [discriminate|].
  destruct (os.Write (bufio.wr b) (bufio.buf b)) as [[n [e1|]] file'].
  - now intros [= <- <-].
  - destruct (n <? length (bufio.buf b))%nat; [|discriminate].
    now intros [= <- <-].
Qed.

Lemma Write_held b p e :
  bufio.err b = Some e -> bufio.Write b p = (Some e, b).
Proof.
  intros He. unfold bufio.Write.
  rewrite !(turn_Bad b p) by congruence. now rewrite He.
Qed.

Lemma Flush_held b e : bufio.err b = Some e -> bufio.Flush b = (Some e, b).
Proof. intros He. unfold bufio.Flush. now rewrite He. Qed.

Lemma appendRecord_err w op key val e w' :
  WAL_appendRecord w op key val = (Some e, w') -> bufio.err (bufw w') = Some e.
Proof.
  unfold WAL_appendRecord.
  destruct (bufio.Write (bufw w) _) as [[e1|] b1] eqn:E1.
  { intros [= <- <-]. apply (Write_err _ _ _ _ E1). }
  destruct (bufio.Write b1 key) as [[e2|] b2] eqn:E2.
  { intros [= <- <-]. apply (Write_err _ _ _ _ E2). }
  destruct (if 0 <? len val then bufio.Write b2 val else (None, b2))
    as [[e3|] b3] eqn:E3.
  { intros [= <- <-]. destruct (0 <? len val); [|discriminate].
    apply (Write_err _ _ _ _ E3). }
  destruct (bufio.Write b3 _) as [[e4|] b4] eqn:E4.
  { intros [= <- <-]. apply (Write_err _ _ _ _ E4). }
  destruct (bufio.Flush b4) as [[e5|] b5] eqn:E5; [|discriminate].
  intros [= <- <-]. apply (Flush_err _ _ _ E5).
Qed.

Lemma appendRecord_held w op key val e :
  bufio.err (bufw w) = Some e -> WAL_appendRecord w op key val = (Some e, w).
Proof.
  intros He. unfold WAL_appendRecord. rewrite (Write_held _ _ _ He).
  destruct w. reflexivity.
Qed.

(** The buffered writer never clears its error, and the program never
    replaces the writer: once the append step of a [Set] or [Del] has
    failed, that call returns the error, and from then on every [Set],
    [Del], [Sync] and [Close] returns the same error and changes nothing,
    neither the table nor the file. *)
Theorem failed_append_is_final kv c e :
  fst (appendOf kv c) = Some e ->
  fst (doCall kv c) = Some e
  /\ forall c',
       doCall (snd (doCall kv c)) c' = (Some e, snd (doCall kv c))
       /\ WAL_Sync (wal (snd (doCall kv c)))
          = (Some e, wal (snd (doCall kv c)))
       /\ KV_Close (snd (doCall kv c)) = (Some e, snd (doCall kv c)).
Proof.
  intros E. rewrite doCall_unfold.
  destruct (appendOf kv c) as [[e1|] w1] eqn:EA; [|discriminate].
  cbn [fst] in E. injection E as ->. cbn [fst snd]. split; [reflexivity|].
  apply appendRecord_err in EA.
  assert (forall w, bufio.err (bufw w) = Some e ->
            WAL_Sync w = (Some e, w) /\ WAL_Close w = (Some e, w)) as HW.
  { intros [b] He. cbn [bufw] in He. unfold WAL_Sync, WAL_Close. cbn [bufw].
    now rewrite (Flush_held b e He). }
  intros c'. split; [|split].
  - rewrite doCall_unfold. unfold appendOf. cbn [wal with_wal].
    rewrite (appendRecord_held w1 _ _ _ e EA). unfold with_wal. reflexivity.
  - cbn [wal with_wal]. apply HW, EA.
  - unfold KV_Close. cbn [wal with_wal].
    rewrite (proj2 (HW w1 EA)). reflexivity.
Qed.

Lemma failed_append_is_final_witness :
  doCall (snd (doCall (freshKV [Some 3%nat] 0) (CallSet keyA val1)))
         (CallSet keyB val22)
  = (Some EIO, snd (doCall (freshKV [Some 3%nat] 0) (CallSet keyA val1))).
Proof.
  refine (proj1 (proj2 (failed_append_is_final (freshKV [Some 3%nat] 0)
                          (CallSet keyA val1) EIO _) (CallSet keyB val22))).
  vm_compute. reflexivity.
Defined.

(** ** Runs with failing calls *)

Lemma Bad_err c0 s b : Bad c0 s b -> bufio.err b <> None.
Proof. now intros [He _]. Qed.

(** One call keeps the log state; its record joins the log exactly when
    its append step returned nil. *)
Lemma doCall_step rs kv c :
  logState rs kv -> callInBounds c ->
  logState (match appendOf kv c with
            | (None, _) => rs ++ [recOf c]
            | (Some _, _) => rs
            end) (snd (doCall kv c))
  /\ mem (snd (doCall kv c))
     = match fst (doCall kv c) with
       | None => applyCall (mem kv) c
       | Some _ => mem kv
       end
  /\ fsyncEvery (snd (doCall kv c)) = fsyncEvery kv
  /\ (fst (doCall kv c) = None -> fst (appendOf kv c) = None)
  /\ (fsyncEvery kv <> 1 -> fst (appendOf kv c) = None ->
      fst (doCall kv c) = None).
Proof.
  intros HS Hc. rewrite doCall_unfold.
  destruct HS as [[HC Hcont] | (r & Hr & HB)].
  - pose proof (appendRecord_clean (wal kv) (r_op (recOf c)) (r_key (recOf c))
                  (r_val (recOf c)) HC) as HA.
    fold (appendOf kv c) in HA. fold (encodeRec (recOf c)) in HA.
    destruct (appendOf kv c) as [[e|] w1].
    + cbn [fst snd mem with_wal wal fsyncEvery].
      split; [|split; [reflexivity|split; [reflexivity|split; discriminate]]].
      right. exists (recOf c). split; [exact Hc|]. now rewrite <- Hcont.
    + destruct HA as [HC1 Hc1].
      destruct (Z.eqb_spec (fsyncEvery kv) 1) as [Hfs|Hfs].
      * destruct (Sync_clean w1 HC1) as (e2 & w2 & -> & HC2 & Hc2).
        assert (logState (rs ++ [recOf c]) (with_wal kv w2)) as HL.
        { left. cbn [wal with_wal]. split; [exact HC2|].
          now rewrite Hc2, Hc1, Hcont, encodeLog_app, encodeLog_one. }
        destruct e2; cbn [fst snd mem with_wal wal fsyncEvery];
          (split; [exact HL|]); repeat split; try reflexivity;
          try discriminate; try contradiction.
      * assert (logState (rs ++ [recOf c]) (with_wal kv w1)) as HL.
        { left. cbn [wal with_wal]. split; [exact HC1|].
          now rewrite Hc1, Hcont, encodeLog_app, encodeLog_one. }
        cbn [fst snd mem with_wal wal fsyncEvery].
        (split; [exact HL|]); repeat split; reflexivity.
  - pose proof (Bad_err _ _ _ HB) as He.
    destruct (bufio.err (bufw (wal kv))) as [e|] eqn:Ee; [|congruence].
    unfold appendOf. rewrite (appendRecord_held (wal kv) _ _ _ e Ee).
    cbn [fst snd mem with_wal wal fsyncEvery]. rewrite with_wal_id.
    split; [|split; [reflexivity|split; [reflexivity|split; discriminate]]].
    right. exists r. auto.
Qed.

Lemma run_logState cs : forall rs kv,
  Forall validRec rs -> logState rs kv -> Forall callInBounds cs ->
  Forall validRec (rs ++ map recOf (logged kv cs))
  /\ logState (rs ++ map recOf (logged kv cs)) (runAll kv cs)
  /\ mem (runAll kv cs) = fold_left applyCall (succeeded kv cs) (mem kv)
  /\ (fsyncEvery kv <> 1 -> logged kv cs = succeeded kv cs).
Proof.
  induction cs as [|c cs IH]; intros rs kv HV HS HB.
  { cbn [logged succeeded map runAll fold_left]. rewrite app_nil_r. auto. }
  apply Forall_cons in HB as [Hc HB].
  destruct (doCall_step rs kv c HS Hc) as (HS1 & Hm1 & Hf1 & Hok1 & Hok2).
  cbn [logged succeeded]. unfold runAll. cbn [fold_left].
  fold (runAll (snd (doCall kv c)) cs).
  destruct (appendOf kv c) as [[ea|] wa] eqn:EA;
    destruct (doCall kv c) as [[ed|] kv1] eqn:ED; cbn [fst snd] in *.
  - destruct (IH rs kv1 HV HS1 HB) as (HV' & HS' & Hm' & Hl').
    rewrite Hm1 in Hm'. rewrite Hf1 in Hl'. auto.
  - specialize (Hok1 eq_refl). discriminate.
  - assert (Forall validRec (rs ++ [recOf c])) as HV1
      by (apply Forall_app; split; [exact HV|]; constructor; [exact Hc|constructor]).
    destruct (IH (rs ++ [recOf c]) kv1 HV1 HS1 HB) as (HV' & HS' & Hm' & Hl').
    cbn [map]. rewrite <- !app_assoc in *. cbn [app] in *.
    rewrite Hm1 in Hm'. rewrite Hf1 in Hl'.
    repeat split; try assumption.
    intros Hfs. specialize (Hok2 Hfs eq_refl). discriminate.
  - assert (Forall validRec (rs ++ [recOf c])) as HV1
      by (apply Forall_app; split; [exact HV|]; constructor; [exact Hc|constructor]).
    destruct (IH (rs ++ [recOf c]) kv1 HV1 HS1 HB) as (HV' & HS' & Hm' & Hl').
    cbn [map fold_left]. rewrite <- !app_assoc in *. cbn [app] in *.
    rewrite Hm1 in Hm'. rewrite Hf1 in Hl'.
    repeat split; try assumption.
    intros Hfs. now rewrite (Hl' Hfs).
Qed.

Lemma reopen_logState rs kv fs :
  Forall validRec rs -> logState rs kv ->
  exists kv', reopen kv fs = Some (inr kv') /\ mem kv' = applyAll rs ∅.
Proof.
  intros HV [[HC Hcont] | (r & Hr & HB)]; unfold reopen.
  - rewrite (KV_Close_clean kv HC). eexists. split.
    + apply (OpenKV_recovered _ fs None). rewrite Hcont.
      apply recovered_complete, HV.
    + reflexivity.
  - unfold KV_Close, WAL_Close.
    destruct (Flush_Bad _ (Bad_err _ _ _ HB)) as [e ->].
    cbn [with_wal wal f bufw]. eexists. split.
    + apply (torn_append_recovered rs r); eassumption.
    + reflexivity.
Qed.

(** A store opened on a well-formed log, then any calls within the size
    bounds, failing or not, under any schedule of faults: the running
    table is the recovered table with the calls that returned nil applied;
    the table a close and reopen rebuilds is the recovered table with the
    calls applied whose append step returned nil.  Unless [fsyncEvery] is
    1 these are the same calls, and the reopened table is the running
    one. *)
Theorem run_then_reopen file fs fs' rs0 kv0 cs :
  os.content file = encodeLog rs0 -> Forall validRec rs0 ->
  OpenKV file None fs = Some (inr kv0) ->
  Forall callInBounds cs ->
  mem (runAll kv0 cs)
  = fold_left applyCall (succeeded kv0 cs) (applyAll rs0 ∅)
  /\ (exists kv',
        reopen (runAll kv0 cs) fs' = Some (inr kv')
        /\ mem kv' = fold_left applyCall (logged kv0 cs) (applyAll rs0 ∅))
  /\ (fs <> 1 -> logged kv0 cs = succeeded kv0 cs).
Proof.
  intros Hcont HV HO HB.
  rewrite (OpenKV_recovered file fs None (applyAll rs0 ∅)) in HO
    by (rewrite Hcont; apply recovered_complete, HV).
  injection HO as <-.
  set (kv0 := {| mem := applyAll rs0 ∅; wal := OpenWAL file; fsyncEvery := fs |}).
  assert (logState rs0 kv0) as HS.
  { left. split; [split; reflexivity | exact Hcont]. }
  destruct (run_logState cs rs0 kv0 HV HS HB) as (HV' & HS' & Hm & Hl).
  split; [exact Hm|]. split; [|exact Hl].
  destruct (reopen_logState _ _ fs' HV' HS') as (kv' & E & Hm').
  exists kv'. split; [exact E|].
  now rewrite Hm', applyAll_app, applyAll_recOf.
Qed.

Lemma run_then_reopen_witness :
  mem (runAll (freshKV [None; Some 0%nat] 1)
         [CallSet keyA val1; CallSet keyB val22])
  = fold_left applyCall
      (succeeded (freshKV [None; Some 0%nat] 1)
         [CallSet keyA val1; CallSet keyB val22])
      (applyAll [] ∅).
Proof.
  refine (proj1 (run_then_reopen (freshFile [None; Some 0%nat]) 1 0 []
                   (freshKV [None; Some 0%nat] 1)
                   [CallSet keyA val1; CallSet keyB val22] _ _ _ _)).
  - reflexivity.
  - constructor.
  - vm_compute. reflexivity.
  - repeat constructor; vm_compute; discriminate.
Defined.

(** In the run of the witness the fsync of the first call fails: that
    call is logged but did not succeed, the second did both. *)
Example run_with_failed_sync :
  succeeded (freshKV [None; Some 0%nat] 1)
    [CallSet keyA val1; CallSet keyB val22] = [CallSet keyB val22]
  /\ logged (freshKV [None; Some 0%nat] 1)
       [CallSet keyA val1; CallSet keyB val22]
     = [CallSet keyA val1; CallSet keyB val22].
Proof. split; vm_compute; reflexivity. Qed.

(** * Further properties of replay *)

(** ** Decoding a whole log *)

(** Replay of a well-formed log hands the callback every record once, in
    the order of the log, and returns nil: it decodes the log back into
    the records it was made of.  So no two different sequences of records
    within the size bounds have the same log. *)
Theorem replay_decodes_log rs rs' :
  Forall validRec rs ->
  (exists br, replay (encodeLog rs) collect [] = Some (None, rs, br))
  /\ (Forall validRec rs' -> encodeLog rs = encodeLog rs' -> rs = rs').
Proof.
  assert (forall l, Forall validRec l ->
            replay (encodeLog l) collect [] = Some (None, l, reader [])) as H.
  { intros l HV. rewrite <- (app_nil_r (encodeLog l)).
    rewrite (replay_log collect l [] [] HV).
    assert (forall acc,
              fold_left (fun s r => collect (r_op r) (r_key r) (r_val r) s) l acc
              = acc ++ l) as ->.
    { induction l as [|r l IH]; intros acc; cbn [fold_left].
      - now rewrite app_nil_r.
      - apply Forall_cons in HV as [_ HV]. rewrite (IH HV). unfold collect.
        destruct r. cbn [r_op r_key r_val]. now rewrite <- app_assoc. }
    reflexivity. }
  intros HV. split; [eauto|].
  intros HV' E. pose proof (H rs HV) as E1. pose proof (H rs' HV') as E2.
  rewrite E in E1. congruence.
Qed.

Lemma replay_decodes_log_witness :
  exists br, replay (encodeLog [recA; recB]) collect []
             = Some (None, [recA; recB], br).
Proof.
  assert (validRec recA) as HA by (vm_compute; intuition discriminate).
  assert (validRec recB) as HB by (vm_compute; intuition discriminate).
  exact (proj1 (replay_decodes_log [recA; recB] []
                  (Forall_cons_2 _ _ _ HA
                     (Forall_cons_2 _ _ _ HB (Forall_nil_2 _))))).
Defined.

(** ** Corruption is never an error *)

Lemma ReadFull_sound_device br n :
  bufio.fault br = None ->
  bufio.fault (snd (io.ReadFull br n)) = None
  /\ snd (fst (io.ReadFull br n)) <> Some EIO
  /\ snd (fst (io.ReadFull br n)) <> Some ErrShortWrite.
Proof.
  intros Hf. unfold io.ReadFull, io.advance.
  destruct (n <=? io.avail br)%nat; cbn [fst snd bufio.fault]; rewrite Hf.
  - repeat split; discriminate.
  - destruct (io.avail br =? 0)%nat; repeat split; discriminate.
Qed.

Lemma readRecord_sound_device br :
  bufio.fault br = None ->
  bufio.fault (snd (readRecord br)) = None
  /\ forall e, fst (readRecord br) <> Failed e.
Proof.
  intros Hf. unfold readRecord.
  pose proof (ReadFull_sound_device br 9 Hf) as (F1 & N1 & N1').
  destruct (io.ReadFull br 9) as [[header e1] br1]. cbn [fst snd] in *.
  destruct e1 as [e1|].
  { destruct e1; cbn [bool_decide decide_rel]; try congruence;
      (split; [exact F1 | intros e; cbn; discriminate]). }
  destruct (_ || _); [split; [exact F1 | discriminate]|].
  match goal with |- context [io.ReadFull br1 ?n] =>
    pose proof (ReadFull_sound_device br1 n F1) as (F2 & _);
    destruct (io.ReadFull br1 n) as [[key e2] br2] end.
  cbn [fst snd] in *.
  destruct e2; [split; [exact F2 | discriminate]|].
  assert (bufio.fault
            (snd (if 0 <? binary.Uint32 (slice header 5 9)
                  then io.ReadFull br2
                         (Z.to_nat (binary.Uint32 (slice header 5 9)))
                  else (([], None), br2))) = None) as F3.
  { destruct (0 <? _); [apply ReadFull_sound_device, F2 | exact F2]. }
  destruct (if 0 <? binary.Uint32 (slice header 5 9)
            then io.ReadFull br2 (Z.to_nat (binary.Uint32 (slice header 5 9)))
            else (([], None), br2)) as [[val e3] br3].
  cbn [fst snd] in *.
  destruct e3; [split; [exact F3 | discriminate]|].
  pose proof (ReadFull_sound_device br3 4 F3) as (F4 & _).
  destruct (io.ReadFull br3 4) as [[crc e4] br4]. cbn [fst snd] in *.
  destruct e4; [split; [exact F4 | discriminate]|].
  destruct (_ =? _); split; try exact F4; discriminate.
Qed.

Lemma replayLoop_sound_device {S : Type}
    (apply : byte -> list byte -> list byte -> S -> S) n :
  forall br st e st' br',
    bufio.fault br = None ->
    replayLoop n br apply st = Some (e, st', br') -> e = None.
Proof.
  induction n as [|n IH]; intros br st e st' br' Hf; [discriminate|].
  cbn [replayLoop].
  destruct (readRecord_sound_device br Hf) as [F N].
  destruct (readRecord br) as [[op key val| | |e0] br1]; cbn [fst snd] in *.
  - apply IH, F.
  - now intros [= <- _ _].
  - now intros [= <- _ _].
  - now destruct (N e0).
Qed.

(** Whatever bytes the file holds, as long as the device reads them
    without fault, [OpenKV] returns a store and never an error: garbage,
    torn and damaged records only end the replay. *)
Theorem open_never_fails_on_content file fs :
  exists m,
    OpenKV file None fs
    = Some (inr {| mem := m; wal := OpenWAL file; fsyncEvery := fs |}).
Proof.
  unfold OpenKV.
  destruct (Replay_returns (OpenWAL file) None applyRecord ∅)
    as (e & m & br & E).
  rewrite E. unfold WAL_Replay in E.
  apply replayLoop_sound_device in E; [|reflexivity]. subst e. eauto.
Qed.

(** ** A device fault during replay *)

Lemma ReadFull_fault_ok xs r k :
  (length xs <= k)%nat ->
  io.ReadFull (freader (xs ++ r) k) (length xs)
  = ((xs, None), freader r (k - length xs)).
Proof.
  intros Hk. unfold io.ReadFull, io.avail, io.advance, freader,
    bufio.NewReaderSize. cbn [bufio.rest bufio.fault].
  rewrite length_app.
  destruct (Nat.leb_spec (length xs) (Nat.min k (length xs + length r)))
    as [_|H]; [|lia].
  rewrite firstn_app, Nat.sub_diag, firstn_all, firstn_0, app_nil_r.
  rewrite skipn_app, Nat.sub_diag, skipn_all. reflexivity.
Qed.

Lemma ReadFull_fault_exact xs r k n :
  length xs = n -> (n <= k)%nat ->
  io.ReadFull (freader (xs ++ r) k) n = ((xs, None), freader r (k - n)).
Proof. intros <-. apply ReadFull_fault_ok. Qed.

Lemma ReadFull_fault_fail data n k :
  (k < n)%nat ->
  exists bs e br, io.ReadFull (freader data k) n = ((bs, Some e), br).
Proof.
  intros Hk. unfold io.ReadFull, io.avail, freader, bufio.NewReaderSize.
  cbn [bufio.rest bufio.fault].
  destruct (Nat.leb_spec n (Nat.min k (length data))) as [H|_]; [lia|].
  eauto.
Qed.

Lemma ReadFull_fault_EIO data n k :
  (k < n)%nat -> (k <= length data)%nat ->
  exists bs br, io.ReadFull (freader data k) n = ((bs, Some EIO), br).
Proof.
  intros Hk Hl. unfold io.ReadFull, io.avail, freader, bufio.NewReaderSize.
  cbn [bufio.rest bufio.fault].
  destruct (Nat.leb_spec n (Nat.min k (length data))) as [H|_]; [lia|].
  destruct (Nat.leb_spec k (length data)) as [_|H]; [|lia]. eauto.
Qed.

(** The loop body decodes the record whose parts the reader delivers. *)
Lemma readRecord_reads op key val br br1 br2 br3 br4 :
  inBounds key val ->
  io.ReadFull br 9 = ((mkHeader op key val, None), br1) ->
  io.ReadFull br1 (length key) = ((key, None), br2) ->
  (if 0 <? len val then io.ReadFull br2 (length val) else (([], None), br2))
  = ((val, None), br3) ->
  io.ReadFull br3 4
  = ((binary.PutUint32 (checksum (mkHeader op key val) key val), None), br4) ->
  readRecord br = (Decoded op key val, br4).
Proof.
  intros HB E1 E2 E3 E4. destruct (inBounds_lens key val HB) as [Ek Ev].
  unfold readRecord. rewrite E1.
  rewrite header_op, header_keyLen, header_valLen, Ek, Ev.
  rewrite (inBounds_guard key val HB), !Z_to_nat_len, E2, E3, E4.
  rewrite Uint32_PutUint32_id.
  fold (checksum (mkHeader op key val) key val).
  rewrite (Z.mod_small _ _ (checksum_range _ _ _)), Z.eqb_refl.
  reflexivity.
Qed.

Lemma readRecord_encode_fault op key val rest k :
  inBounds key val ->
  (length (encode op key val) <= k)%nat ->
  readRecord (freader (encode op key val ++ rest) k)
  = (Decoded op key val, freader rest (k - length (encode op key val))).
Proof.
  intros HB Hk. rewrite length_encode in *. unfold encode.
  set (h := mkHeader op key val). set (crc := binary.PutUint32 _).
  assert (length crc = 4%nat) as Lc by reflexivity.
  assert (length h = 9%nat) as Lh by reflexivity.
  rewrite <- !app_assoc.
  apply (readRecord_reads op key val _
           (freader (key ++ val ++ crc ++ rest) (k - 9))
           (freader (val ++ crc ++ rest) (k - 9 - length key))
           (freader (crc ++ rest) (k - 9 - length key - length val)));
    [exact HB| | | |].
  - apply ReadFull_fault_exact; [exact Lh | lia].
  - apply ReadFull_fault_ok. lia.
  - destruct (Z.ltb_spec 0 (len val)) as [H|H].
    + apply ReadFull_fault_ok. lia.
    + apply len_le_0 in H. subst val. cbn [app length].
      now rewrite Nat.sub_0_r.
  - fold h. fold crc.
    rewrite (ReadFull_fault_exact crc rest _ 4 Lc) by lia. do 2 f_equal. lia.
Qed.

(** With the fault inside the header the loop body fails; with the fault
    behind the header and before the end of the record it signals
    corruption. *)
Lemma readRecord_fault op key val rest j :
  inBounds key val ->
  (j < length (encode op key val))%nat ->
  exists br,
    readRecord (freader (encode op key val ++ rest) j)
    = (if (j <? 9)%nat then Failed EIO else Corrupt, br).
Proof.
  intros HB Hj. rewrite length_encode in Hj.
  destruct (inBounds_lens key val HB) as [Ek Ev].
  unfold readRecord, encode.
  set (h := mkHeader op key val). set (crc := binary.PutUint32 _).
  assert (length h = 9%nat) as Lh by reflexivity.
  rewrite <- !app_assoc.
  destruct (Nat.ltb_spec j 9) as [H9|H9].
  { destruct (ReadFull_fault_EIO (h ++ key ++ val ++ crc ++ rest) 9 j H9)
      as (bs & br & ->); [rewrite length_app; lia|]. eauto. }
  rewrite (ReadFull_fault_exact h _ j 9 Lh) by lia. subst h.
  rewrite header_keyLen, header_valLen, Ek, Ev.
  rewrite (inBounds_guard key val HB), !Z_to_nat_len.
  set (k1 := (j - 9)%nat).
  destruct (Nat.lt_ge_cases k1 (length key)) as [Hkey|Hkey].
  { destruct (ReadFull_fault_fail (key ++ val ++ crc ++ rest) (length key)
                k1 Hkey) as (bs & e & br & ->). eauto. }
  rewrite ReadFull_fault_ok by exact Hkey. set (k2 := (k1 - length key)%nat).
  destruct (Z.ltb_spec 0 (len val)) as [Hv|Hv].
  - destruct (Nat.lt_ge_cases k2 (length val)) as [Hval|Hval].
    { destruct (ReadFull_fault_fail (val ++ crc ++ rest) (length val)
                  k2 Hval) as (bs & e & br & ->). eauto. }
    rewrite ReadFull_fault_ok by exact Hval.
    destruct (ReadFull_fault_fail (crc ++ rest) 4 (k2 - length val))
      as (bs & e & br & ->); [lia|]. eauto.
  - apply len_le_0 in Hv. subst val. cbn [app length] in *.
    destruct (ReadFull_fault_fail (crc ++ rest) 4 k2)
      as (bs & e & br & ->); [lia|]. eauto.
Qed.

Lemma encodeLog_cons r rs : encodeLog (r :: rs) = encodeRec r ++ encodeLog rs.
Proof. reflexivity. Qed.

Lemma length_encodeLog rs : (length rs <= length (encodeLog rs))%nat.
Proof.
  induction rs as [|r rs IH]; [reflexivity|].
  rewrite encodeLog_cons, length_app. unfold encodeRec.
  rewrite length_encode. cbn [length]. lia.
Qed.

Lemma replayLoop_fault_log {S : Type}
    (apply : byte -> list byte -> list byte -> S -> S) rs :
  forall rest k n st,
    Forall validRec rs -> (length (encodeLog rs) <= k)%nat ->
    replayLoop (length rs + n) (freader (encodeLog rs ++ rest) k) apply st
    = replayLoop n (freader rest (k - length (encodeLog rs))) apply
        (fold_left (fun s r => apply (r_op r) (r_key r) (r_val r) s) rs st).
Proof.
  induction rs as [|r rs IH]; intros rest k n st HV Hk.
  { cbn. now rewrite Nat.sub_0_r. }
  apply Forall_cons in HV as [Hr HV].
  rewrite encodeLog_cons, length_app in *.
  rewrite <- app_assoc. cbn [length Nat.add replayLoop fold_left].
  unfold encodeRec at 1.
  rewrite (readRecord_encode_fault (r_op r) (r_key r) (r_val r)) by
    (try exact Hr; unfold encodeRec in Hk; lia).
  fold (encodeRec r).
  rewrite IH by (try exact HV; lia).
  do 2 f_equal. lia.
Qed.

(** A failure of the device while replay reads the log is reported only
    when it strikes in a record header: [OpenKV] then returns the error.
    When it strikes behind the header, in the key, the value or the
    checksum of a record, [Replay] returns nil as for a torn record, and
    [OpenKV] returns a store holding only the records before that one. *)
Theorem device_fault_during_replay rs r rest j faults fs :
  Forall validRec rs -> validRec r ->
  (j < length (encodeRec r))%nat ->
  let file := {| os.content := encodeLog rs ++ encodeRec r ++ rest;
                 os.faults := faults |} in
  OpenKV file (Some (length (encodeLog rs) + j)%nat) fs
  = Some (if (j <? 9)%nat then inl EIO
          else inr {| mem := applyAll rs ∅; wal := OpenWAL file;
                      fsyncEvery := fs |}).
Proof.
  intros HV Hr Hj file. unfold OpenKV, WAL_Replay.
  change (os.content (f (OpenWAL file)))
    with (encodeLog rs ++ encodeRec r ++ rest).
  change (bufio.NewReaderSize ?d (Some ?k)) with (freader d k).
  pose proof (length_encodeLog rs) as HL.
  assert (exists n, Datatypes.S (length (encodeLog rs ++ encodeRec r ++ rest))
                    = (length rs + Datatypes.S n)%nat) as [n ->].
  { exists (length (encodeLog rs ++ encodeRec r ++ rest) - length rs)%nat.
    rewrite length_app. lia. }
  rewrite replayLoop_fault_log by (try exact HV; lia).
  replace (length (encodeLog rs) + j - length (encodeLog rs))%nat with j by lia.
  cbn [replayLoop].
  destruct (readRecord_fault (r_op r) (r_key r) (r_val r) rest j Hr Hj)
    as [br E].
  fold (encodeRec r) in E. rewrite E.
  destruct (j <? 9)%nat; reflexivity.
Qed.

Lemma device_fault_during_replay_witness :
  OpenKV {| os.content := encodeLog [recA] ++ encodeRec recB ++ [];
            os.faults := [] |}
         (Some (length (encodeLog [recA]) + 10)%nat) 0
  = Some (if (10 <? 9)%nat then inl EIO
          else inr {| mem := applyAll [recA] ∅;
                      wal := OpenWAL {| os.content :=
                                          encodeLog [recA] ++ encodeRec recB
                                          ++ [];
                                        os.faults := [] |};
                      fsyncEvery := 0 |}).
Proof.
  assert (validRec recA) as HA by (vm_compute; intuition discriminate).
  assert (validRec recB) as HB by (vm_compute; intuition discriminate).
  assert (10 < length (encodeRec recB))%nat as Hj by (vm_compute; lia).
  exact (device_fault_during_replay [recA] recB [] 10 [] 0
           (Forall_cons_2 _ _ _ HA (Forall_nil_2 _)) HB Hj).
Defined.

(** ** Records the write path takes and replay refuses *)

(** [Set] and [Del] check no size.  A call whose key is empty or longer
    than 2^20 bytes, or whose value is longer than 64*2^20 bytes (both
    shorter than 2^32), succeeds on a clean store with no fault scheduled
    and changes the table; but replay stops at its record, so a reopen
    recovers only the records before it and loses whatever was logged
    after it. *)
Theorem oversize_record_blocks_recovery kv c rs rest faults fs :
  clean (wal kv) -> noFaults (f (wal kv)) ->
  ~ callInBounds c ->
  len (r_key (recOf c)) < 2 ^ 32 -> len (r_val (recOf c)) < 2 ^ 32 ->
  Forall validRec rs ->
  (exists kv', doCall kv c = (None, kv')
               /\ mem kv' = applyCall (mem kv) c
               /\ os.content (f (wal kv'))
                  = os.content (f (wal kv)) ++ encodeRec (recOf c))
  /\ let file := {| os.content := encodeLog rs ++ encodeRec (recOf c) ++ rest;
                    os.faults := faults |} in
     OpenKV file None fs
     = Some (inr {| mem := applyAll rs ∅; wal := OpenWAL file;
                    fsyncEvery := fs |}).
Proof.
  intros HC Hf Hnb Lk Lv HV. split.
  - destruct (doCall_noFaults kv c HC Hf) as [kv' E].
    exists kv'. split; [exact E|].
    apply doCall_ok in E as (_ & Hc & Hm & _); [|exact HC]. auto.
  - intros file. apply (OpenKV_recovered file fs None).
    set (r := recOf c) in *.
    assert (exists br, readRecord (reader (encodeRec r ++ rest)) = (Corrupt, br))
      as [br Hbr].
    { eexists. unfold encodeRec, encode. rewrite <- app_assoc.
      refine (proj1 (bad_length_corrupt _ _ _ _ _)).
      - apply (ReadFull_exact (mkHeader (r_op r) (r_key r) (r_val r))).
        reflexivity.
      - rewrite header_keyLen, header_valLen.
        pose proof (len_nonneg (r_key r)). pose proof (len_nonneg (r_val r)).
        rewrite !uint32_small by lia.
        unfold callInBounds, validRec, inBounds, maxKey, maxVal in Hnb.
        fold r in Hnb. lia. }
    apply (recovered_stop rs _ br HV). right. exact Hbr.
Qed.

Lemma oversize_record_blocks_recovery_witness :
  OpenKV {| os.content := encodeLog [recA] ++ encodeRec (recOf (CallDel []))
                          ++ encodeLog [recB];
            os.faults := [] |} None 0
  = Some (inr {| mem := applyAll [recA] ∅;
                 wal := OpenWAL {| os.content :=
                                     encodeLog [recA]
                                     ++ encodeRec (recOf (CallDel []))
                                     ++ encodeLog [recB];
                                   os.faults := [] |};
                 fsyncEvery := 0 |}).
Proof.
  assert (clean (wal (freshKV [] 0))) as HC by (split; reflexivity).
  assert (noFaults (f (wal (freshKV [] 0)))) as Hf by reflexivity.
  assert (validRec recA) as HA by (vm_compute; intuition discriminate).
  assert (~ callInBounds (CallDel [])) as Hnb
    by (vm_compute; intuition discriminate).
  assert (len (r_key (recOf (CallDel []))) < 2 ^ 32) as Lk by reflexivity.
  assert (len (r_val (recOf (CallDel []))) < 2 ^ 32) as Lv by reflexivity.
  exact (proj2 (oversize_record_blocks_recovery (freshKV [] 0) (CallDel [])
                  [recA] (encodeLog [recB]) [] 0 HC Hf Hnb Lk Lv
                  (Forall_cons_2 _ _ _ HA (Forall_nil_2 _)))).
Defined.

(** * The sharded map *)

(** FNV-1a check values: the empty string, "a" and "foobar". *)
Example fnv32a_check_values :
  fnv.Sum32 (fnv.Write fnv.New32a []) = 0x811c9dc5
  /\ fnv.Sum32 (fnv.Write fnv.New32a (bytes [97])) = 0xe40c292c
  /\ fnv.Sum32 (fnv.Write fnv.New32a (bytes [102; 111; 111; 98; 97; 114]))
     = 0xbf9cf968.
Proof. repeat split; vm_compute; reflexivity. Qed.


Section ShardedFacts.
Context {K : Type} `{Countable K} {V : Type}.
Variable Fprint : K -> list byte.

Implicit Types (s : Sharded K V) (key k : K) (v : V).


Lemma shardOf_length s s' key :
  length (shards s') = length (shards s) ->
  shardOf Fprint s' key = shardOf Fprint s key.
Proof. intros E. unfold shardOf, len. now rewrite E. Qed.


(** After [Put(key, v)], [Get(key)] finds [v]; every other key, also one
    in the same shard, reads as before; the number of shards is the
    same. *)
Theorem sharded_Put_then_Get s key v s' :
  Sharded_Put Fprint s key v = Some s' ->
  Sharded_Get Fprint s' key = Some (Some v)
  /\ (forall k, k <> key -> Sharded_Get Fprint s' k = Sharded_Get Fprint s k)
  /\ length (shards s') = length (shards s).
Proof.
  unfold Sharded_Put.
  destruct (shardOf Fprint s key) as [i|] eqn:Ei; [|discriminate].
  destruct (shards s !! i) as [m|] eqn:Em; [|discriminate].
  intros [= <-]. cbn [shards].
  assert (length (<[i := <[key := v]> m]> (shards s)) = length (shards s))
    as El by apply length_insert.
  assert (i < length (shards s))%nat as Hi by (eapply lookup_lt_Some, Em).
  split; [|split; [|exact El]].
  - unfold Sharded_Get.
    rewrite (shardOf_length s {| shards := _ |} key El), Ei. cbn [shards].
    rewrite list_lookup_insert_eq by exact Hi. now rewrite lookup_insert_eq.
  - intros k Hk. unfold Sharded_Get.
    rewrite (shardOf_length s {| shards := _ |} k El). cbn [shards].
    destruct (shardOf Fprint s k) as [j|]; [|reflexivity].
    destruct (decide (i = j)) as [<-|Hij].
    + rewrite list_lookup_insert_eq by exact Hi. rewrite Em.
      rewrite lookup_insert_ne by congruence. reflexivity.
    + now rewrite list_lookup_insert_ne by exact Hij.
Qed.


End ShardedFacts.


Lemma sharded_Put_then_Get_witness :
  Sharded_Get id
    (default (NewSharded 4)
       (Sharded_Put id (NewSharded 4 : Sharded (list byte) nat) keyA 7%nat))
    keyA
  = Some (Some 7%nat).
Proof.
  refine (proj1 (sharded_Put_then_Get id (NewSharded 4) keyA 7%nat
                   (default (NewSharded 4)
                      (Sharded_Put id (NewSharded 4 : Sharded (list byte) nat)
                         keyA 7%nat)) _)).
  vm_compute. reflexivity.
Defined.


(** * C3: failed calls *)

(** C3, as stated, fails when [fsyncEvery] is 1 and the fsync fails: [Set]
    returns the error and leaves the table empty, but the record is in the
    log, and the store reopened on that log holds the value. *)
Lemma C3_counterexample :
  fst (KV_Set (freshKV [None; Some 0%nat] 1) keyA val1) = Some EIO
  /\ mem (snd (KV_Set (freshKV [None; Some 0%nat] 1) keyA val1)) = ∅
  /\ match reopen (snd (KV_Set (freshKV [None; Some 0%nat] 1) keyA val1)) 1 with
     | Some (inr kv') => mem kv' !! keyA = Some val1
     | _ => False
     end.
Proof.
  split; [vm_compute; reflexivity|].
  split; vm_compute; reflexivity.
Qed.

(** The torn bytes of a failed append are never removed.  Here the append
    of "Set a=1" fails after three bytes; the store is closed and
    reopened, and "Set b=22" then returns nil; but its record lies behind
    the three torn bytes, and the next reopen does not find b. *)
Example torn_tail_loses_later_set :
  match reopen (snd (KV_Set (freshKV [Some 3%nat] 0) keyA val1)) 0 with
  | Some (inr kv2) =>
      fst (KV_Set kv2 keyB val22) = None
      /\ KV_Get (snd (KV_Set kv2 keyB val22)) keyB = Some val22
      /\ match reopen (snd (KV_Set kv2 keyB val22)) 0 with
         | Some (inr kv4) => KV_Get kv4 keyB = None
         | _ => False
         end
  | _ => False
  end.
Proof. vm_compute. repeat split; reflexivity. Qed.

Lemma doCall_grows kv c :
  os.content (f (wal kv))
  `prefix_of` os.content (f (wal (snd (doCall kv c)))).
Proof.
  rewrite doCall_unfold. unfold appendOf.
  pose proof (appendRecord_grows (wal kv) (r_op (recOf c)) (r_key (recOf c))
                (r_val (recOf c))) as H1.
  destruct (WAL_appendRecord _ _ _ _) as [[e|] w1]; cbn [snd] in *;
    [exact H1|].
  assert (os.content (f w1) `prefix_of`
          os.content (f (snd (if fsyncEvery kv =? 1 then WAL_Sync w1
                              else (None, w1))))) as H2.
  { destruct (fsyncEvery kv =? 1); [apply Sync_grows | reflexivity]. }
  destruct (if fsyncEvery kv =? 1 then WAL_Sync w1 else (None, w1))
    as [[e|] w2]; cbn [snd wal with_wal] in *; etrans; eassumption.
Qed.

(** Close and reopen in a log state: the table of the records, on the
    file as it is. *)
Lemma reopen_logState_file rs kv fs :
  Forall validRec rs -> logState rs kv ->
  reopen kv fs
  = Some (inr {| mem := applyAll rs ∅; wal := OpenWAL (f (wal kv));
                 fsyncEvery := fs |}).
Proof.
  intros HV [[HC Hcont] | (r & Hr & HB)]; unfold reopen.
  - rewrite (KV_Close_clean kv HC).
    apply (OpenKV_recovered _ fs None). rewrite Hcont.
    apply recovered_complete, HV.
  - unfold KV_Close, WAL_Close.
    destruct (Flush_Bad _ (Bad_err _ _ _ HB)) as [e ->].
    cbn [with_wal wal f bufw].
    apply (torn_append_recovered rs r); eassumption.
Qed.

(** C3, amended.  Whenever [Set] or [Del] returns an error, in whatever
    state the store is, the table is untouched: every [Get] returns what
    it returned before the call.  The log is not rolled back.  The file
    keeps all the bytes it had.  When the writer held no error and nothing
    buffered before the call, the file has gained either a proper prefix
    of the record of the operation (the append step failed), or the whole
    record (the append step returned nil and [Sync] failed, with
    [fsyncEvery] 1).  When moreover the log before the call was well
    formed and the operation is within the size bounds of replay, a close
    and reopen made directly after the failed call opens a store on that
    same file, torn prefix included, whose table is that of the earlier
    records in the first case, and that table with the failed operation
    applied to it in the second. *)
Theorem C3_failed_call kv c e kv' :
  doCall kv c = (Some e, kv') ->
  mem kv' = mem kv
  /\ (forall k, KV_Get kv' k = KV_Get kv k)
  /\ os.content (f (wal kv)) `prefix_of` os.content (f (wal kv'))
  /\ (clean (wal kv) ->
      ((fst (appendOf kv c) <> None
        /\ exists w t,
             os.content (f (wal kv')) = os.content (f (wal kv)) ++ w
             /\ w ++ t = encodeRec (recOf c) /\ t <> [])
       \/ (fst (appendOf kv c) = None /\ fsyncEvery kv = 1
           /\ os.content (f (wal kv'))
              = os.content (f (wal kv)) ++ encodeRec (recOf c)))
      /\ forall rs fs,
           os.content (f (wal kv)) = encodeLog rs ->
           Forall validRec rs -> callInBounds c ->
           reopen kv' fs
           = Some (inr {| mem := match fst (appendOf kv c) with
                                | Some _ => applyAll rs ∅
                                | None => applyCall (applyAll rs ∅) c
                                end;
                          wal := OpenWAL (f (wal kv'));
                          fsyncEvery := fs |})).
Proof.
  intros E.
  assert (kv' = snd (doCall kv c)) as Ekv by now rewrite E.
  pose proof (doCall_err_mem kv c e kv' E) as Hm.
  split; [exact Hm|]. split; [intros k; unfold KV_Get; now rewrite Hm|].
  split; [rewrite Ekv; apply doCall_grows|].
  intros HC. split.
  - pose proof (appendRecord_clean (wal kv) (r_op (recOf c)) (r_key (recOf c))
                  (r_val (recOf c)) HC) as HA.
    fold (appendOf kv c) in HA. fold (encodeRec (recOf c)) in HA.
    rewrite doCall_unfold in E.
    destruct (appendOf kv c) as [[e1|] w1]; cbn [fst].
    + injection E as _ <-. left. split; [discriminate|]. apply HA.
    + destruct HA as [HC1 Hc1]. right. split; [reflexivity|].
      destruct (Z.eqb_spec (fsyncEvery kv) 1) as [Hfs|Hfs]; [|discriminate].
      split; [exact Hfs|].
      destruct (Sync_clean w1 HC1) as (e2 & w2 & ES & _ & Hc2).
      rewrite ES in E. destruct e2; [|discriminate].
      injection E as _ <-. cbn [wal with_wal]. now rewrite Hc2.
  - intros rs fs Hcont HV Hb.
    assert (logState rs kv) as HS by (left; split; assumption).
    destruct (doCall_step rs kv c HS Hb) as (HS1 & _).
    rewrite <- Ekv in HS1.
    destruct (appendOf kv c) as [[e1|] w1]; cbn [fst].
    + apply reopen_logState_file; assumption.
    + rewrite (reopen_logState_file (rs ++ [recOf c]) kv' fs).
      * rewrite applyAll_app. cbn [applyAll fold_left].
        now rewrite applyRecord_recOf.
      * apply Forall_app. split; [exact HV|].
        constructor; [exact Hb | constructor].
      * exact HS1.
Qed.

Lemma C3_failed_call_witness :
  mem (snd (KV_Set (freshKV [Some 3%nat] 0) keyA val1))
  = mem (freshKV [Some 3%nat] 0).
Proof.
  refine (proj1 (C3_failed_call (freshKV [Some 3%nat] 0) (CallSet keyA val1)
                   EIO (snd (KV_Set (freshKV [Some 3%nat] 0) keyA val1)) _)).
  vm_compute. reflexivity.
Defined.
